(** * Block headers of the thor ledger: [block/header.go]

    A shallow embedding of the [Header] value of package [block] and a
    verification of its hash / number / signature binding.

    The Go code works on a garbage-collected heap: a [*Header] is a pointer,
    the two memoized values are pointers to cells owned by the header, and
    the signature is a byte slice over a backing array.  The embedding keeps
    that heap: methods are computations in a small state-and-error monad
    over an explicit memory, so that aliasing, defensive copies and cache
    writes are visible in the statements.

    The collaborators that live outside [header.go] (the RLP codec, the
    hasher of package [cry], the signer recovery of package [dsa]) are
    parameters of the development. *)

From Stdlib Require Import ZArith Lia.
From Stdlib.Strings Require Import Byte.
From stdpp Require Import base numbers option list strings gmap relations.

Local Open Scope Z_scope.

(** ** Bytes and machine integers *)

#[global] Instance byte_eq_dec : EqDecision byte := Byte.byte_eq_dec.

(** [uint32(b)] for a byte [b]. *)
Definition byte_to_Z (b : byte) : Z := Z.of_N (Byte.to_N b).

(** [byte(v)]: Go's conversion keeps the low 8 bits. *)
Definition byte_of_Z (z : Z) : byte :=
  default x00 (Byte.of_N (Z.to_N (z mod 256))).

(** Values of type [uint32] are integers in [0, 2^32); arithmetic wraps. *)
Definition wrap32 (z : Z) : Z := z mod 2 ^ 32.

(** ** [encoding/binary]: big-endian 32-bit words *)

Module BigEndian.

(** [binary.BigEndian.Uint32(b)].  The Go function indexes [b[3]] first
    and panics on a shorter slice; every call site in [header.go] passes
    [hash[:4]] of a 32-byte array, so the short case ([None]) is never
    taken there. *)
Definition Uint32 (b : list byte) : option Z :=
  match b with
  | b0 :: b1 :: b2 :: b3 :: _ =>
      Some (Z.lor (Z.lor (Z.lor (byte_to_Z b3)
                                (Z.shiftl (byte_to_Z b2) 8))
                         (Z.shiftl (byte_to_Z b1) 16))
                  (Z.shiftl (byte_to_Z b0) 24))
  | _ => None
  end.

(** [binary.BigEndian.PutUint32(b, v)]: four stores through the slice. *)
Definition PutUint32 (b : list byte) (v : Z) : list byte :=
  let b := <[0%nat := byte_of_Z (Z.shiftr v 24)]> b in
  let b := <[1%nat := byte_of_Z (Z.shiftr v 16)]> b in
  let b := <[2%nat := byte_of_Z (Z.shiftr v 8)]> b in
  <[3%nat := byte_of_Z v]> b.

End BigEndian.

(** The big-endian encoding of a 32-bit number, as the four bytes it
    occupies. *)
Definition be32 (v : Z) : list byte :=
  [byte_of_Z (Z.shiftr v 24); byte_of_Z (Z.shiftr v 16);
   byte_of_Z (Z.shiftr v 8); byte_of_Z v].

(** ** Package [cry] and [acc]: fixed-size byte arrays *)

(** Modelled from the spec: the packages [cry] and [acc] declare
    [cry.Hash], a 32-byte digest, and [acc.Address], a 20-byte account
    identifier.  Arrays are lists of bytes; the Go types fix their
    lengths. *)
Abbreviation Hash := (list byte) (only parsing).
Abbreviation Address := (list byte) (only parsing).

Definition HashLength : nat := 32.
Definition AddressLength : nat := 20.

(** [cry.Hash{}], the zero value. *)
Definition zero_hash : Hash := replicate HashLength x00.

(** [Number] extracts the block number from a block hash: the first four
    bytes, big endian.  A 32-byte array always has them; on a shorter list
    (which is no [cry.Hash]) the model reads 0. *)
Definition Number (hash : Hash) : Z :=
  default 0 (BigEndian.Uint32 (take 4 hash)).

(** ** Memory

    Locations name heap objects.  A cell holds the bytes of a backing array
    of a [[]byte], or the target of a [*cry.Hash] or [*acc.Address]; header
    objects live in their own table, addressed by [*Header] pointers. *)

Definition loc := positive.

(** A [[]byte] value: [nil], or a window into a backing array.  The
    capacity is left out: [header.go] never appends to a slice it keeps. *)
Inductive slice :=
| SNil
| Slice (arr : loc) (off len : nat).

(** [len(s)] *)
Definition slice_len (s : slice) : nat :=
  match s with SNil => 0%nat | Slice _ _ n => n end.

(** Modelled from the spec: the package [bn] declares [bn.Int], an
    arbitrary-precision integer that is not negative in a header. *)
Abbreviation bn_Int := Z (only parsing).

(** [headerContent]: content of header.  [Signature] is a slice, hence a
    reference into memory. *)
Record headerContent := {
  ParentHash : Hash;
  Timestamp : Z;
  TotalScore : bn_Int;
  GasLimit : bn_Int;
  GasUsed : bn_Int;
  Beneficiary : Address;
  TxsRoot : Hash;
  StateRoot : Hash;
  ReceiptsRoot : Hash;
  Signature : slice
}.

(** The anonymous [cache] struct of [Header]: two pointers, [nil] until the
    value is first computed. *)
Record headerCache := {
  hash : option loc;
  signer : option loc
}.

(** [Header] *)
Record Header := {
  content : headerContent;
  cache : headerCache
}.

(** [Header{content: c}]: the composite literal leaves [cache] at its zero
    value. *)
Definition Header_of_content (c : headerContent) : Header :=
  {| content := c; cache := {| hash := None; signer := None |} |}.

Record mem := {
  cells : gmap loc (list byte);
  headers : gmap loc Header
}.

Definition empty_mem : mem := {| cells := ∅; headers := ∅ |}.

(** ** Errors and the method monad *)

(** The error values a method of [Header] returns: the ["not signed"] error
    of [Signer], an error of [dsa.Signer], an error of the RLP codec. *)
Inductive error :=
| NotSigned
| RecoveryFailed (msg : string)
| CodecError (msg : string).

(** What a call does: returns a value, returns an error, or panics (a nil or
    dangling dereference, an index out of range). *)
Inductive outcome (A : Type) :=
| Ok (a : A)
| Err (e : error)
| Panic.
Arguments Ok {A} a.
Arguments Err {A} e.
Arguments Panic {A}.

Definition M (A : Type) : Type := mem → outcome A * mem.

#[global] Instance M_ret : MRet M := λ A a m, (Ok a, m).

#[global] Instance M_bind : MBind M := λ A B k c m,
  match c m with
  | (Ok a, m') => k a m'
  | (Err e, m') => (Err e, m')
  | (Panic, m') => (Panic, m')
  end.

(** [return ..., err] *)
Definition fail {A} (e : error) : M A := λ m, (Err e, m).

(** [*p] for a [*Header] *)
Definition load_header (l : loc) : M Header :=
  λ m, match headers m !! l with
       | Some h => (Ok h, m)
       | None => (Panic, m)
       end.

(** [*p = h] for a [*Header] *)
Definition store_header (l : loc) (h : Header) : M unit :=
  λ m, match headers m !! l with
       | Some _ => (Ok tt, {| cells := cells m; headers := <[l := h]> (headers m) |})
       | None => (Panic, m)
       end.

(** [&Header{...}]: a new header object *)
Definition new_header (h : Header) : M loc :=
  λ m, let l := fresh (dom (headers m)) in
       (Ok l, {| cells := cells m; headers := <[l := h]> (headers m) |}).

(** [*p] for a pointer to a byte array *)
Definition load_cell (p : loc) : M (list byte) :=
  λ m, match cells m !! p with
       | Some bs => (Ok bs, m)
       | None => (Panic, m)
       end.

(** A new byte array (the target of [&x], or the backing array of a new
    slice). *)
Definition new_cell (bs : list byte) : M loc :=
  λ m, let p := fresh (dom (cells m)) in
       (Ok p, {| cells := <[p := bs]> (cells m); headers := headers m |}).

(** The bytes a slice denotes in a memory. *)
Definition slice_view (cs : gmap loc (list byte)) (s : slice) : option (list byte) :=
  match s with
  | SNil => Some []
  | Slice a off n =>
      match cs !! a with
      | Some arr => if decide (off + n ≤ length arr)%nat
                    then Some (take n (drop off arr)) else None
      | None => None
      end
  end.

(** Reading a whole slice, as [append(dst, s...)] or an encoder does. *)
Definition read_slice (s : slice) : M (list byte) :=
  λ m, match slice_view (cells m) s with
       | Some bs => (Ok bs, m)
       | None => (Panic, m)
       end.

(** [append([]byte(nil), s...)]: appending nothing to [nil] gives [nil];
    otherwise a new backing array receives a copy of the elements. *)
Definition append_nil (s : slice) : M slice :=
  bs ← read_slice s;
  match bs with
  | [] => mret SNil
  | _ => a ← new_cell bs; mret (Slice a 0 (length bs))
  end.

(** [s[i] = b] through a slice: a store into the backing array. *)
Definition slice_store (s : slice) (i : nat) (b : byte) : M unit :=
  λ m, match s with
       | SNil => (Panic, m)
       | Slice a off n =>
           match cells m !! a with
           | Some arr =>
               if decide (i < n ∧ off + n ≤ length arr)%nat
               then (Ok tt, {| cells := <[a := <[(off + i)%nat := b]> arr]> (cells m);
                               headers := headers m |})
               else (Panic, m)
           | None => (Panic, m)
           end
       end.

(** ** The collaborators of [header.go]

    The RLP codec ([github.com/ethereum/go-ethereum/rlp]), the hasher
    ([cry.NewHasher]) and the signer recovery ([dsa.Signer]) are interfaces
    here; [header.go] fixes which fields are handed to them and in which
    order. *)

Inductive result (A : Type) :=
| Success (a : A)
| Failure (msg : string).
Arguments Success {A} a.
Arguments Failure {A} msg.

(** The Go types of the fields [header.go] encodes: [cry.Hash] and
    [acc.Address] are byte arrays, [Timestamp] is a [uint64], the scores and
    gas amounts are [bn.Int], [Signature] is a [[]byte]. *)
Inductive kind :=
| KArray (n : nat)
| KUint64
| KBigInt
| KBytes.

Definition kind_type (k : kind) : Type :=
  match k with
  | KArray _ | KBytes => list byte
  | KUint64 | KBigInt => Z
  end.

(** The values of a struct, or of a list literal, with fields of the given
    types in the given order. *)
Fixpoint fields (ks : list kind) : Type :=
  match ks with
  | [] => unit
  | k :: ks => (kind_type k * fields ks)%type
  end.

(** [rlp.Encode(w, v)] gives the bytes written to [w], or an error with
    nothing written; [Stream.Decode(&v)] reads one value off the front of
    the stream and leaves the rest. *)
Class Codec := {
  rlp_Encode : ∀ ks, fields ks → result (list byte);
  rlp_Decode : ∀ ks, list byte → result (fields ks * list byte)
}.

(** The law of the codec: a value the encoder accepts is read back off the
    front of any stream that starts with its encoding. *)
Class CodecLaws `{Codec} : Prop :=
  rlp_roundtrip : ∀ ks (vs : fields ks) bs rest,
    rlp_Encode ks vs = Success bs → rlp_Decode ks (bs ++ rest) = Success (vs, rest).

(** [cry.NewHasher()]: the digest of everything written to the hasher. *)
Class Hasher := digest : list byte → list byte.

(** [dsa.Signer(hash, sig)] *)
Class Recover := dsa_Signer : Hash → list byte → result Address.

(** [hw.Sum(hash[:0])] for an array [hash]: [Sum] appends the digest to the
    empty slice over the array, so a digest that fits the capacity lands in
    the array itself; a longer one goes to a new array and leaves [hash]
    as it was. *)
Definition Sum_into (d : list byte) (arr : list byte) : list byte :=
  if decide (length d ≤ length arr)%nat then d ++ drop (length d) arr else arr.

(** ** [Header]: content as field lists *)

(** The fields of [headerContent], in declaration order. *)
Definition headerKinds : list kind :=
  [KArray HashLength; KUint64; KBigInt; KBigInt; KBigInt; KArray AddressLength;
   KArray HashLength; KArray HashLength; KArray HashLength; KBytes].

(** The fields [HashForSigning] lists. *)
Definition signingKinds : list kind :=
  [KArray HashLength; KUint64; KBigInt; KBigInt; KArray AddressLength;
   KArray HashLength; KArray HashLength; KArray HashLength].

(** [&h.content] as the encoder sees it, the signature read through its
    slice. *)
Definition content_fields (c : headerContent) (sig : list byte) : fields headerKinds :=
  (ParentHash c, (Timestamp c, (TotalScore c, (GasLimit c, (GasUsed c,
  (Beneficiary c, (TxsRoot c, (StateRoot c, (ReceiptsRoot c, (sig, tt)))))))))).

(** The [[]interface{}{...}] literal of [HashForSigning]. *)
Definition signing_fields (c : headerContent) : fields signingKinds :=
  (ParentHash c, (Timestamp c, (GasLimit c, (GasUsed c,
  (Beneficiary c, (TxsRoot c, (StateRoot c, (ReceiptsRoot c, tt)))))))).

(** A decoded [headerContent]; its signature bytes are in a slice [sig]. *)
Definition fields_content (fs : fields headerKinds) (sig : slice) : headerContent :=
  let '(ph, (ts, (sc, (gl, (gu, (bf, (tr, (sr, (rr, _))))))))) := fs in
  {| ParentHash := ph; Timestamp := ts; TotalScore := sc; GasLimit := gl;
     GasUsed := gu; Beneficiary := bf; TxsRoot := tr; StateRoot := sr;
     ReceiptsRoot := rr; Signature := sig |}.

Definition fields_signature (fs : fields headerKinds) : list byte :=
  let '(_, (_, (_, (_, (_, (_, (_, (_, (_, (sig, _)))))))))) := fs in sig.

(** [content.Signature = s] on a copy of the struct. *)
Definition set_Signature (c : headerContent) (s : slice) : headerContent :=
  {| ParentHash := ParentHash c; Timestamp := Timestamp c;
     TotalScore := TotalScore c; GasLimit := GasLimit c; GasUsed := GasUsed c;
     Beneficiary := Beneficiary c; TxsRoot := TxsRoot c;
     StateRoot := StateRoot c; ReceiptsRoot := ReceiptsRoot c;
     Signature := s |}.

Definition set_hash (h : Header) (p : loc) : Header :=
  {| content := content h;
     cache := {| hash := Some p; signer := signer (cache h) |} |}.

Definition set_signer (h : Header) (p : loc) : Header :=
  {| content := content h;
     cache := {| hash := hash (cache h); signer := Some p |} |}.

(** ** [Header]: the methods *)

(** [Number] returns sequential number of this block. *)
Definition Header_Number (h : Header) : Z :=
  if decide (zero_hash = ParentHash (content h)) then
    (* genesis block *)
    0
  else
    (* inferred from parent hash *)
    wrap32 (Number (ParentHash (content h)) + 1).

(** A call whose error result is dropped, with what it wrote: an encoder
    that fails has written nothing. *)
Definition written {A} (c : M (list A)) : M (list A) :=
  λ m, match c m with
       | (Err _, m') => (Ok [], m')
       | r => r
       end.

Section Methods.
Context `{Codec, Hasher, Recover}.

(** [EncodeRLP] implements [rlp.Encoder]; the result is what reaches the
    writer. *)
Definition Header_EncodeRLP (l : loc) : M (list byte) :=
  h ← load_header l;
  sig ← read_slice (Signature (content h));
  match rlp_Encode headerKinds (content_fields (content h) sig) with
  | Success bs => mret bs
  | Failure msg => fail (CodecError msg)
  end.

(** [Hash] computes hash of header (block hash). *)
Definition Header_Hash (l : loc) : M Hash :=
  h ← load_header l;
  match hash (cache h) with
  | Some cached => load_cell cached
  | None =>
      (* rlp.Encode(hw, h) goes through h.EncodeRLP *)
      hw ← written (Header_EncodeRLP l);
      let sum := Sum_into (digest hw) zero_hash in
      (* overwrite first 4 bytes of block hash to block number *)
      let sum := BigEndian.PutUint32 (take 4 sum) (Header_Number h) ++ drop 4 sum in
      p ← new_cell sum;
      store_header l (set_hash h p);;
      mret sum
  end.

(** The body of [HashForSigning] on a content. *)
Definition signing_hash (c : headerContent) : Hash :=
  let hw := match rlp_Encode signingKinds (signing_fields c) with
            | Success bs => bs
            | Failure _ => []
            end in
  Sum_into (digest hw) zero_hash.

(** [HashForSigning] computes hash of all header fields excluding
    signature. *)
Definition Header_HashForSigning (l : loc) : M Hash :=
  h ← load_header l;
  mret (signing_hash (content h)).

(** [WithSignature] create a new Header object with signature set. *)
Definition Header_WithSignature (l : loc) (sig : slice) : M loc :=
  h ← load_header l;
  let content := content h in
  s ← append_nil sig;
  new_header (Header_of_content (set_Signature content s)).

(** [Signer] returns signer of this block. *)
Definition Header_Signer (l : loc) : M loc :=
  h ← load_header l;
  if decide (slice_len (Signature (content h)) = 0%nat) then
    fail NotSigned
  else
    match signer (cache h) with
    | Some p => cpy ← load_cell p; new_cell cpy
    | None =>
        hs ← Header_HashForSigning l;
        sig ← read_slice (Signature (content h));
        match dsa_Signer hs sig with
        | Failure msg => fail (RecoveryFailed msg)
        | Success a =>
            (* the pointer dsa.Signer returns *)
            p ← new_cell a;
            store_header l (set_signer h p);;
            cpy ← load_cell p;
            new_cell cpy
        end
    end.

(** [DecodeRLP] implements [rlp.Decoder]; the stream is its unread input,
    and the result is what is left of it. *)
Definition Header_DecodeRLP (l : loc) (s : list byte) : M (list byte) :=
  match rlp_Decode headerKinds s with
  | Failure msg => fail (CodecError msg)
  | Success (fs, rest) =>
      (* the decoder has made the backing array of content.Signature *)
      a ← new_cell (fields_signature fs);
      let content := fields_content fs (Slice a 0 (length (fields_signature fs))) in
      store_header l (Header_of_content content);;
      mret rest
  end.

End Methods.

(** ** [Header]: the accessors *)

(** [ParentHash] returns hash of parent block. *)
Definition Header_ParentHash (l : loc) : M Hash :=
  h ← load_header l; mret (ParentHash (content h)).

(** [Timestamp] returns timestamp of this block. *)
Definition Header_Timestamp (l : loc) : M Z :=
  h ← load_header l; mret (Timestamp (content h)).

(** [TotalScore] returns total score that cumulated from genesis block to
    this one. *)
Definition Header_TotalScore (l : loc) : M bn_Int :=
  h ← load_header l; mret (TotalScore (content h)).

(** [GasLimit] returns gas limit of this block. *)
Definition Header_GasLimit (l : loc) : M bn_Int :=
  h ← load_header l; mret (GasLimit (content h)).

(** [GasUsed] returns gas used by txs. *)
Definition Header_GasUsed (l : loc) : M bn_Int :=
  h ← load_header l; mret (GasUsed (content h)).

(** [Beneficiary] returns reward recipient. *)
Definition Header_Beneficiary (l : loc) : M Address :=
  h ← load_header l; mret (Beneficiary (content h)).

(** [TxsRoot] returns merkle root of txs contained in this block. *)
Definition Header_TxsRoot (l : loc) : M Hash :=
  h ← load_header l; mret (TxsRoot (content h)).

(** [StateRoot] returns account state merkle root just after this block
    being applied. *)
Definition Header_StateRoot (l : loc) : M Hash :=
  h ← load_header l; mret (StateRoot (content h)).

(** [ReceiptsRoot] returns merkle root of tx receipts. *)
Definition Header_ReceiptsRoot (l : loc) : M Hash :=
  h ← load_header l; mret (ReceiptsRoot (content h)).

(** [h.Number()] through the pointer. *)
Definition Header_Number_at (l : loc) : M Z :=
  h ← load_header l; mret (Header_Number h).

(** [*p = v] for a pointer to a byte array, as a caller does with the
    [*acc.Address] it got from [Signer]. *)
Definition store_cell (p : loc) (v : list byte) : M unit :=
  λ m, match cells m !! p with
       | Some _ => (Ok tt, {| cells := <[p := v]> (cells m); headers := headers m |})
       | None => (Panic, m)
       end.

(** What a call may do to a memory while the headers stay immutable: add
    cells and header objects, and change caches; every cell and the content
    of every header object are as before. *)
Definition keeps_contents (m m' : mem) : Prop :=
  cells m ⊆ cells m' ∧
  ∀ k h, headers m !! k = Some h →
         ∃ h', headers m' !! k = Some h' ∧ content h' = content h.

(** ** What the caches must hold *)

Section Coherence.
Context `{Codec, Hasher, Recover}.

(** The digest of the encoded content, in a [cry.Hash] array: the value
    [hash] has in [Hash] before the number is written into it. *)
Definition full_hash (c : headerContent) (sig : list byte) : Hash :=
  let hw := match rlp_Encode headerKinds (content_fields c sig) with
            | Success bs => bs
            | Failure _ => []
            end in
  Sum_into (digest hw) zero_hash.

(** The block hash: the number in the first four bytes, the digest in the
    other 28. *)
Definition block_hash (h : Header) (sig : list byte) : Hash :=
  be32 (Header_Number h) ++ drop 4 (full_hash (content h) sig).

(** The signature slice of a header reads [sig]. *)
Definition readable (m : mem) (h : Header) (sig : list byte) : Prop :=
  slice_view (cells m) (Signature (content h)) = Some sig.

(** A hash pointer that is set leads to the block hash. *)
Definition hash_cached (m : mem) (h : Header) (sig : list byte) : Prop :=
  ∀ p, hash (cache h) = Some p → cells m !! p = Some (block_hash h sig).

(** A signer pointer that is set leads to the address [dsa.Signer]
    recovers, and is only set on a signed header. *)
Definition signer_cached (m : mem) (h : Header) (sig : list byte) : Prop :=
  ∀ q, signer (cache h) = Some q →
    sig ≠ [] ∧
    ∃ a, cells m !! q = Some a ∧
         dsa_Signer (signing_hash (content h)) sig = Success a.

(** A header is coherent in a memory when its signature slice is
    readable and each cache pointer that is set leads to the value the
    method would compute.  [Header{content: c}] is coherent, every method
    keeps headers coherent, and no code outside the package can reach the
    fields. *)
Definition coherent (m : mem) (h : Header) : Prop :=
  ∃ sig, readable m h sig ∧ hash_cached m h sig ∧ signer_cached m h sig.

(** A memory all of whose headers are coherent. *)
Definition mem_coherent (m : mem) : Prop :=
  ∀ l h, headers m !! l = Some h → coherent m h.

End Coherence.

(** [child] is built on [parent]: it is no genesis header, and its parent
    hash is what [Hash] returns on [parent], in some memory that holds
    [parent] with a readable signature and a hash cache that is unset or
    holds the hash. *)
Definition parent_of `{Codec, Hasher} (parent child : Header) : Prop :=
  ParentHash (content child) ≠ zero_hash ∧
  ∃ m l sig m',
    headers m !! l = Some parent ∧ readable m parent sig ∧
    hash_cached m parent sig ∧
    Header_Hash l m = (Ok (ParentHash (content child)), m').

(** Two contents that differ at most in [TotalScore]. *)
Definition same_but_TotalScore (c1 c2 : headerContent) : Prop :=
  ParentHash c1 = ParentHash c2 ∧ Timestamp c1 = Timestamp c2 ∧
  GasLimit c1 = GasLimit c2 ∧ GasUsed c1 = GasUsed c2 ∧
  Beneficiary c1 = Beneficiary c2 ∧ TxsRoot c1 = TxsRoot c2 ∧
  StateRoot c1 = StateRoot c2 ∧ ReceiptsRoot c1 = ReceiptsRoot c2 ∧
  Signature c1 = Signature c2.

(** Two contents that differ at most in [Signature]: in the slice, and so
    in the bytes it leads to. *)
Definition same_but_Signature (c1 c2 : headerContent) : Prop :=
  ParentHash c1 = ParentHash c2 ∧ Timestamp c1 = Timestamp c2 ∧
  TotalScore c1 = TotalScore c2 ∧
  GasLimit c1 = GasLimit c2 ∧ GasUsed c1 = GasUsed c2 ∧
  Beneficiary c1 = Beneficiary c2 ∧ TxsRoot c1 = TxsRoot c2 ∧
  StateRoot c1 = StateRoot c2 ∧ ReceiptsRoot c1 = ReceiptsRoot c2.

(** The hasher gives 32 bytes on two inputs and does not map them to one
    digest unless they are one input. *)
Definition no_collision `{Hasher} (b1 b2 : list byte) : Prop :=
  length (digest b1) = 32%nat ∧ length (digest b2) = 32%nat ∧
  (digest b1 = digest b2 → b1 = b2).

(** A header is signed when its signature is not empty. *)
Definition signed (h : Header) : Prop :=
  slice_len (Signature (content h)) ≠ 0%nat.

(** A header object in a memory, as a state of the life cycle of a
    signature. *)
Definition signed_at (s : mem * loc) : Prop :=
  ∃ h, headers s.1 !! s.2 = Some h ∧ signed h.

(** One call [h2 := h1.WithSignature(sig)]: from the receiver in the memory
    before the call to the new header in the memory after it. *)
Definition WithSignature_step (sig : slice) (s1 s2 : mem * loc) : Prop :=
  Header_WithSignature s1.2 sig s1.1 = (Ok s2.2, s2.1).

(** The content of a header as a value: the fields, the signature read
    through its slice. *)
Definition content_value (m : mem) (h : Header) : option (fields headerKinds) :=
  content_fields (content h) <$> slice_view (cells m) (Signature (content h)).

(** ** RLP, the codec of the ledger

    An executable codec for the interface above, after the RLP rules: a
    byte below [0x80] stands for itself, a string of up to 55 bytes has the
    head [0x80 + len], a longer one [0xb7 + len(len)] and the length; lists
    use [0xc0] and [0xf7].  Integers are big endian without leading zeros.
    The decoder accepts canonical input only. *)

Module RLP.

#[global] Instance result_ret : MRet result := λ A a, Success a.
#[global] Instance result_bind : MBind result := λ A B k r,
  match r with
  | Success a => k a
  | Failure msg => Failure msg
  end.

(** [n] bytes of [z], most significant first. *)
Fixpoint be_n (n : nat) (z : Z) : list byte :=
  match n with
  | O => []
  | S n' => byte_of_Z (Z.shiftr z (8 * Z.of_nat n')) :: be_n n' z
  end.

(** The number of bytes of [z] without leading zeros. *)
Definition byte_len (z : Z) : nat :=
  if decide (z <= 0) then 0%nat else Z.to_nat (Z.log2 z / 8 + 1).

Definition be_bytes (z : Z) : list byte := be_n (byte_len z) z.

Definition be_value (bs : list byte) : Z :=
  foldl (λ acc b, acc * 256 + byte_to_Z b) 0 bs.

(** The head of a string ([tag = 0x80]) or list ([tag = 0xc0]) with a
    payload of [n] bytes. *)
Definition head (tag : Z) (n : nat) : result (list byte) :=
  if decide (n < 56)%nat then Success [byte_of_Z (tag + Z.of_nat n)]
  else
    let size := be_bytes (Z.of_nat n) in
    if decide (length size ≤ 8)%nat
    then Success (byte_of_Z (tag + 55 + Z.of_nat (length size)) :: size)
    else Failure "rlp: value too large".

Definition encode_string (bs : list byte) : result (list byte) :=
  match bs with
  | [b] => if decide (byte_to_Z b < 128) then Success [b]
           else Success [byte_of_Z 129; b]
  | _ => hd ← head 128 (length bs); mret (hd ++ bs)
  end.

Definition encode_kind (k : kind) : kind_type k → result (list byte) :=
  match k with
  | KArray n => λ bs, if decide (length bs = n) then encode_string bs
                      else Failure "rlp: array of the wrong length"
  | KUint64 => λ z, if decide (0 <= z < 2 ^ 64) then encode_string (be_bytes z)
                    else Failure "rlp: not a uint64"
  | KBigInt => λ z, if decide (0 <= z) then encode_string (be_bytes z)
                    else Failure "rlp: cannot encode negative *big.Int"
  | KBytes => encode_string
  end.

Fixpoint encode_fields (ks : list kind) : fields ks → result (list byte) :=
  match ks with
  | [] => λ _, Success []
  | k :: ks' => λ vs,
      a ← encode_kind k (fst vs);
      b ← encode_fields ks' (snd vs);
      mret (a ++ b)
  end.

Definition encode (ks : list kind) (vs : fields ks) : result (list byte) :=
  payload ← encode_fields ks vs;
  hd ← head 192 (length payload);
  mret (hd ++ payload).

Inductive tag := TString | TList.

Definition split_at (n : nat) (bs : list byte) : result (list byte * list byte) :=
  if decide (n ≤ length bs)%nat then Success (take n bs, drop n bs)
  else Failure "unexpected EOF".

(** The size that follows a long head: no leading zero, and not a size
    the short form could hold. *)
Definition read_size (n : nat) (bs : list byte) : result (nat * list byte) :=
  '(size, rest) ← split_at n bs;
  match size with
  | [] => Failure "rlp: non-canonical size information"
  | b :: _ =>
      if decide (b = x00) then Failure "rlp: non-canonical size information"
      else if decide (be_value size < 56)
           then Failure "rlp: non-canonical size information"
           else Success (Z.to_nat (be_value size), rest)
  end.

(** One item off the front of the input: its tag, its payload, the rest. *)
Definition decode_item (bs : list byte) : result (tag * list byte * list byte) :=
  match bs with
  | [] => Failure "EOF"
  | b :: rest =>
      let v := byte_to_Z b in
      if decide (v < 128) then Success (TString, [b], rest)
      else if decide (v < 184) then
        '(p, rest') ← split_at (Z.to_nat (v - 128)) rest;
        match p with
        | [c] => if decide (byte_to_Z c < 128)
                 then Failure "rlp: non-canonical size information"
                 else Success (TString, p, rest')
        | _ => Success (TString, p, rest')
        end
      else if decide (v < 192) then
        '(n, rest1) ← read_size (Z.to_nat (v - 183)) rest;
        '(p, rest') ← split_at n rest1;
        mret (TString, p, rest')
      else if decide (v < 248) then
        '(p, rest') ← split_at (Z.to_nat (v - 192)) rest;
        mret (TList, p, rest')
      else
        '(n, rest1) ← read_size (Z.to_nat (v - 247)) rest;
        '(p, rest') ← split_at n rest1;
        mret (TList, p, rest')
  end.

(** An integer payload is canonical when it has no leading zero byte. *)
Definition canonical_int (p : list byte) : bool :=
  match p with
  | b :: _ => bool_decide (b ≠ x00)
  | [] => true
  end.

Definition decode_kind (k : kind) (bs : list byte)
  : result (kind_type k * list byte) :=
  '(t, p, rest) ← decode_item bs;
  match t with
  | TList => Failure "rlp: expected input string or byte"
  | TString =>
      match k return result (kind_type k * list byte) with
      | KArray n =>
          if decide (length p = n) then Success (p, rest)
          else Failure "rlp: input string of the wrong size"
      | KUint64 =>
          if canonical_int p then
            if decide (length p ≤ 8)%nat then Success (be_value p, rest)
            else Failure "rlp: input string too long"
          else Failure "rlp: non-canonical integer (leading zero bytes)"
      | KBigInt =>
          if canonical_int p then Success (be_value p, rest)
          else Failure "rlp: non-canonical integer (leading zero bytes)"
      | KBytes => Success (p, rest)
      end
  end.

Fixpoint decode_fields (ks : list kind) (bs : list byte)
  : result (fields ks * list byte) :=
  match ks return result (fields ks * list byte) with
  | [] => Success (tt, bs)
  | k :: ks' =>
      '(v, rest) ← decode_kind k bs;
      '(vs, rest') ← decode_fields ks' rest;
      mret ((v, vs), rest')
  end.

Definition decode (ks : list kind) (bs : list byte)
  : result (fields ks * list byte) :=
  '(t, p, rest) ← decode_item bs;
  match t with
  | TString => Failure "rlp: expected input list"
  | TList =>
      '(vs, more) ← decode_fields ks p;
      match more with
      | [] => Success (vs, rest)
      | _ => Failure "rlp: input list has too many elements"
      end
  end.

Definition codec : Codec :=
  {| rlp_Encode := encode; rlp_Decode := decode |}.

End RLP.

(** ** Fixtures

    Stand-ins for the hasher and the signer recovery, and sample headers,
    for running the methods on concrete memories. *)

Module Fixture.

(** A positional checksum of 32 bytes in the place of the hasher. *)
Definition checksum : Hasher := λ bs,
  RLP.be_n 32 (foldl (λ acc b, acc * 257 + byte_to_Z b + 1) 0 bs).

(** A recovery that accepts signatures of 65 bytes. *)
Definition recover : Recover := λ sum sig,
  if decide (length sig = 65%nat)
  then Success (take 20 (checksum (sig ++ sum)))
  else Failure "invalid signature length".

(** The content of a header on top of the parent hash [parent]. *)
Definition content_on (parent : Hash) (sig : slice) : headerContent :=
  {| ParentHash := parent; Timestamp := 1526400000; TotalScore := 0;
     GasLimit := 10000000; GasUsed := 0; Beneficiary := replicate 20 x01;
     TxsRoot := zero_hash; StateRoot := zero_hash; ReceiptsRoot := zero_hash;
     Signature := sig |}.

(** The genesis content: zero parent hash, no signature. *)
Definition genesis : headerContent := content_on zero_hash SNil.

(** A memory with one header object, at location 1, and no cells. *)
Definition store (h : Header) : mem :=
  {| cells := ∅; headers := {[ 1%positive := h ]} |}.

(** A header of number 8: its parent hash starts with the number 7. *)
Definition eighth : Header :=
  Header_of_content (content_on (be32 7 ++ replicate 28 xaa) SNil).

(** The hash of a header without signature. *)
Definition hash_of (h : Header) : Hash :=
  block_hash (H := RLP.codec) (H0 := checksum) h [].

(** Three headers on top of the genesis header. *)
Definition block0 : Header := Header_of_content genesis.
Definition block1 : Header := Header_of_content (content_on (hash_of block0) SNil).
Definition block2 : Header := Header_of_content (content_on (hash_of block1) SNil).
Definition block3 : Header := Header_of_content (content_on (hash_of block2) SNil).

(** A header on top of block number [2^32 - 1]. *)
Definition last_number : Header :=
  Header_of_content (content_on (replicate 32 xff) SNil).

(** The genesis content one second later, with a score. *)
Definition later : headerContent :=
  {| ParentHash := zero_hash; Timestamp := 1526400001; TotalScore := 7;
     GasLimit := 10000000; GasUsed := 0; Beneficiary := replicate 20 x01;
     TxsRoot := zero_hash; StateRoot := zero_hash; ReceiptsRoot := zero_hash;
     Signature := SNil |}.

(** A memory with two header objects. *)
Definition two_headers : mem :=
  {| cells := ∅;
     headers := {[ 1%positive := block0; 2%positive := Header_of_content later ]} |}.

(** What [RLP] writes for the fields [HashForSigning] lists. *)
Definition signing_bytes (c : headerContent) : list byte :=
  match RLP.encode signingKinds (signing_fields c) with
  | Success bs => bs
  | Failure _ => []
  end.

(** A caller's buffer of five bytes at location 5, beside the genesis
    header with its hash computed (the cell at location 1). *)
Definition with_buffer : mem :=
  {| cells := {[ 1%positive := hash_of block0;
                 5%positive := [x0a; x0b; x0c; x0d; x0e] ]};
     headers := {[ 1%positive := set_hash block0 1%positive ]} |}.

(** A signed genesis header: its signature is the 65 bytes of the cell at
    location 2. *)
Definition signed_genesis : Header :=
  Header_of_content (content_on zero_hash (Slice 2%positive 0 65)).

Definition signed_store : mem :=
  {| cells := {[ 2%positive := replicate 65 x07 ]};
     headers := {[ 1%positive := signed_genesis ]} |}.

(** The memory after [WithSignature(nil)] on the signed genesis header. *)
Definition unsigned_again : mem :=
  snd (Header_WithSignature 1%positive SNil signed_store).

(** What [RLP] writes for a content whose signature reads [sig]. *)
Definition encoded (c : headerContent) (sig : list byte) : list byte :=
  match RLP.encode headerKinds (content_fields c sig) with
  | Success bs => bs
  | Failure _ => []
  end.

(** The first 20 bytes of the encoded genesis content. *)
Definition truncated : list byte := take 20 (encoded genesis []).

(** A header whose signature is too short for [recover]: the three bytes of
    the cell at location 2. *)
Definition badly_signed_store : mem :=
  {| cells := {[ 2%positive := [x01; x02; x03] ]};
     headers := {[ 1%positive :=
                   Header_of_content (content_on zero_hash (Slice 2%positive 0 3)) ]} |}.

(** The memory after [Hash] has run once on [eighth]. *)
Definition hashed : mem :=
  snd (Header_Hash (H := RLP.codec) (H0 := checksum) 1%positive (store eighth)).



End Fixture.

(** ** Basic facts on bytes *)

Lemma byte_to_Z_range b : 0 <= byte_to_Z b < 256.
Proof.
  unfold byte_to_Z. pose proof (Byte.to_N_bounded b) as Hb.
  split; [apply N2Z.is_nonneg|]. lia.
Qed.

Lemma byte_of_to_Z b : byte_of_Z (byte_to_Z b) = b.
Proof.
  unfold byte_of_Z, byte_to_Z.
  rewrite Z.mod_small by (apply (byte_to_Z_range b)).
  by rewrite N2Z.id, Byte.of_to_N.
Qed.

Lemma byte_to_of_Z z : byte_to_Z (byte_of_Z z) = z mod 256.
Proof.
  unfold byte_of_Z, byte_to_Z.
  assert (Hr : 0 <= z mod 256 < 256) by (apply Z.mod_pos_bound; lia).
  destruct (Byte.of_N (Z.to_N (z mod 256))) as [b|] eqn:E.
  - apply Byte.to_of_N in E. simpl. rewrite E. lia.
  - apply Byte.of_N_None_iff in E. lia.
Qed.


(** ** Big-endian words *)

(** Writing through [hash[:4]] replaces the first four bytes of the array by
    the big-endian bytes of the number. *)
Lemma PutUint32_prefix (arr : list byte) v :
  (4 ≤ length arr)%nat →
  BigEndian.PutUint32 (take 4 arr) v ++ drop 4 arr = be32 v ++ drop 4 arr.
Proof.
  intros Hlen. f_equal.
  destruct arr as [|a0 [|a1 [|a2 [|a3 arr]]]]; simpl in Hlen; try lia.
  reflexivity.
Qed.

Lemma lor_shiftl_add a b n :
  0 <= n → 0 <= a < 2 ^ n → Z.lor a (Z.shiftl b n) = a + b * 2 ^ n.
Proof.
  intros Hn Ha.
  rewrite <- Z.lxor_lor, <- Z.add_nocarry_lxor, Z.shiftl_mul_pow2; try done.
  all: apply Z.bits_inj'; intros i Hi;
       rewrite Z.land_spec, Z.bits_0, Z.shiftl_spec by lia.
  all: destruct (decide (i < n)).
  all: try (rewrite (Z.testbit_neg_r b) by lia; apply andb_false_r).
  all: replace a with (a mod 2 ^ n) by (apply Z.mod_small; lia).
  all: by rewrite Z.mod_pow2_bits_high by lia.
Qed.

Lemma Uint32_be32 v rest :
  BigEndian.Uint32 (be32 v ++ rest) = Some (wrap32 v).
Proof.
  unfold BigEndian.Uint32, be32, wrap32. simpl. f_equal.
  rewrite !byte_to_of_Z, !Z.shiftr_div_pow2 by lia.
  assert (H8 : ∀ x, 0 <= x mod 256 < 256) by (intros; apply Z.mod_pos_bound; lia).
  rewrite (lor_shiftl_add _ _ 8) by (try apply H8; lia).
  rewrite (lor_shiftl_add _ _ 16) by (pose proof (H8 v); pose proof (H8 (v / 2 ^ 8)); lia).
  rewrite (lor_shiftl_add _ _ 24)
    by (pose proof (H8 v); pose proof (H8 (v / 2 ^ 8)); pose proof (H8 (v / 2 ^ 16)); lia).
  change (2 ^ 8) with 256. change (2 ^ 16) with (256 * 256).
  change (2 ^ 24) with (256 * 256 * 256). change (2 ^ 32) with (256 * 256 * 256 * 256).
  rewrite <- !Z.div_div by lia.
  generalize (v / 256 / 256 / 256) (Z.div_mod (v / 256 /256) 256) .
  generalize (v / 256 / 256) (Z.div_mod (v / 256) 256).
  generalize (v / 256) (Z.div_mod v 256). intros q1 E1 q2 E2 q3 E3.
  specialize (E1 ltac:(lia)). specialize (E2 ltac:(lia)). specialize (E3 ltac:(lia)).
  pose proof (H8 v). pose proof (H8 q1). pose proof (H8 q2). pose proof (H8 q3).
  apply (Z.mod_unique_pos _ _ (q3 / 256)); [lia|].
  pose proof (Z.div_mod q3 256 ltac:(lia)). lia.
Qed.

(** [Number] reads back what [PutUint32] wrote. *)
Lemma Number_be32 v rest : Number (be32 v ++ rest) = wrap32 v.
Proof.
  unfold Number. change (take 4 (be32 v ++ rest)) with (be32 v ++ []).
  by rewrite Uint32_be32.
Qed.

Lemma wrap32_range v : 0 <= wrap32 v < 2 ^ 32.
Proof. apply Z.mod_pos_bound. lia. Qed.

Lemma wrap32_small v : 0 <= v < 2 ^ 32 → wrap32 v = v.
Proof. apply Z.mod_small. Qed.

Lemma Number_range (b : Hash) : 0 <= Number b < 2 ^ 32.
Proof.
  unfold Number. destruct (take 4 b) as [|b0 [|b1 [|b2 [|b3 t]]]]; simpl; try lia.
  pose proof (byte_to_Z_range b0). pose proof (byte_to_Z_range b1).
  pose proof (byte_to_Z_range b2). pose proof (byte_to_Z_range b3).
  rewrite (lor_shiftl_add _ _ 8) by lia.
  rewrite (lor_shiftl_add _ _ 16) by lia.
  rewrite (lor_shiftl_add _ _ 24) by lia. lia.
Qed.

Lemma Header_Number_range h : 0 <= Header_Number h < 2 ^ 32.
Proof.
  unfold Header_Number. case_decide; [lia|]. apply wrap32_range.
Qed.

(** ** Running the methods *)

Section Runs.
Context `{Codec, Hasher, Recover}.

Lemma Sum_into_length d (arr : list byte) : length (Sum_into d arr) = length arr.
Proof.
  unfold Sum_into. case_decide; [|done].
  rewrite length_app, length_drop. lia.
Qed.

Lemma full_hash_length c sig : length (full_hash c sig) = 32%nat.
Proof. unfold full_hash. by rewrite Sum_into_length. Qed.

Lemma signing_hash_length c : length (signing_hash c) = 32%nat.
Proof. unfold signing_hash. by rewrite Sum_into_length. Qed.

Lemma block_hash_length h sig : length (block_hash h sig) = 32%nat.
Proof.
  unfold block_hash. rewrite length_app, length_drop, full_hash_length. done.
Qed.

Lemma block_hash_take h sig : take 4 (block_hash h sig) = be32 (Header_Number h).
Proof. done. Qed.

Lemma Header_EncodeRLP_run m l h sig :
  headers m !! l = Some h → readable m h sig →
  Header_EncodeRLP l m =
    (match rlp_Encode headerKinds (content_fields (content h) sig) with
     | Success bs => Ok bs
     | Failure msg => Err (CodecError msg)
     end, m).
Proof.
  intros Hl Hs. unfold Header_EncodeRLP, mbind, M_bind, load_header, read_slice.
  rewrite Hl, Hs. by destruct (rlp_Encode _ _).
Qed.

Lemma Header_Hash_cached m l h p v :
  headers m !! l = Some h → hash (cache h) = Some p → cells m !! p = Some v →
  Header_Hash l m = (Ok v, m).
Proof.
  intros Hl Hp Hv. unfold Header_Hash, mbind, M_bind, load_header.
  rewrite Hl, Hp. unfold load_cell. by rewrite Hv.
Qed.

Lemma Header_Hash_compute m l h sig :
  headers m !! l = Some h → readable m h sig → hash (cache h) = None →
  let p := fresh (dom (cells m)) in
  Header_Hash l m =
    (Ok (block_hash h sig),
     {| cells := <[p := block_hash h sig]> (cells m);
        headers := <[l := set_hash h p]> (headers m) |}).
Proof.
  intros Hl Hs Hp p. unfold Header_Hash, mbind at 1, M_bind at 1, load_header.
  rewrite Hl, Hp. unfold mbind at 1, M_bind at 1, written.
  rewrite (Header_EncodeRLP_run m l h sig Hl Hs).
  assert (E : ∀ hw, BigEndian.PutUint32 (take 4 (Sum_into (digest hw) zero_hash))
                      (Header_Number h) ++ drop 4 (Sum_into (digest hw) zero_hash)
                    = be32 (Header_Number h) ++ drop 4 (Sum_into (digest hw) zero_hash)).
  { intros hw. apply PutUint32_prefix. rewrite Sum_into_length. simpl. lia. }
  unfold block_hash, full_hash.
  destruct (rlp_Encode _ _) as [bs|msg]; rewrite E;
    unfold mbind, M_bind, new_cell, store_header; simpl; by rewrite Hl.
Qed.

End Runs.

(** ** Number embedding *)

(** C1.  For a header whose hash cache, if set, holds what [Hash] computes
    (every header the package makes is such), [Hash] returns 32 bytes whose
    first four are the big-endian encoding of [Number], and whose other 28
    are those of the digest of the encoded content: the digest is computed
    and its first four bytes are overwritten with the number. *)
Theorem Hash_embeds_Number `{Codec, Hasher} (m : mem) (l : loc) (h : Header)
    (sig : list byte) :
  headers m !! l = Some h → readable m h sig → hash_cached m h sig →
  ∃ sum m',
    Header_Hash l m = (Ok sum, m') ∧
    take 4 sum = be32 (Header_Number h) ∧
    drop 4 sum = drop 4 (full_hash (content h) sig) ∧
    length sum = 32%nat.
Proof.
  intros Hl Hs Hc.
  destruct (hash (cache h)) as [p|] eqn:Hp.
  - exists (block_hash h sig), m. split_and!.
    + eapply Header_Hash_cached; eauto.
    + done.
    + done.
    + apply block_hash_length.
  - eexists (block_hash h sig), _. split_and!.
    + by apply Header_Hash_compute.
    + done.
    + done.
    + apply block_hash_length.
Qed.

Lemma Hash_embeds_Number_witness :
  let m := Fixture.hashed in
  let h := set_hash Fixture.eighth 1%positive in
  (headers m !! 1%positive = Some h ∧ readable m h [] ∧
   hash_cached (H := RLP.codec) (H0 := Fixture.checksum) m h []) ∧
  ∃ sum m',
    Header_Hash (H := RLP.codec) (H0 := Fixture.checksum) 1%positive m = (Ok sum, m') ∧
    take 4 sum = be32 (Header_Number h) ∧
    drop 4 sum = drop 4 (full_hash (H := RLP.codec) (H0 := Fixture.checksum) (content h) []) ∧
    length sum = 32%nat.
Proof.
  intros m h.
  assert (Hl : headers m !! 1%positive = Some h) by (vm_compute; reflexivity).
  assert (Hs : readable m h []) by reflexivity.
  assert (Hc : hash_cached (H := RLP.codec) (H0 := Fixture.checksum) m h []).
  { intros p Hp. injection Hp as <-. vm_compute. reflexivity. }
  split; [by split_and!|].
  exact (Hash_embeds_Number m 1%positive h [] Hl Hs Hc).
Defined.

(** ** The RLP codec reads back what it wrote *)

Lemma split_at_app (p rest : list byte) :
  RLP.split_at (length p) (p ++ rest) = Success (p, rest).
Proof.
  unfold RLP.split_at. rewrite decide_True by (rewrite length_app; lia).
  by rewrite take_app_length, drop_app_length.
Qed.

Lemma be_value_snoc bs b :
  RLP.be_value (bs ++ [b]) = RLP.be_value bs * 256 + byte_to_Z b.
Proof. unfold RLP.be_value. by rewrite foldl_app. Qed.

Lemma be_value_cons b bs :
  RLP.be_value (b :: bs) = byte_to_Z b * 256 ^ Z.of_nat (length bs) + RLP.be_value bs.
Proof.
  induction bs as [|c bs IH] using rev_ind.
  - unfold RLP.be_value. simpl. lia.
  - rewrite app_comm_cons, !be_value_snoc, IH, length_app. simpl.
    replace (Z.of_nat (length bs + 1)) with (Z.of_nat (length bs) + 1) by lia.
    rewrite Z.pow_add_r by lia. lia.
Qed.

Lemma be_n_length n z : length (RLP.be_n n z) = n.
Proof. induction n; simpl; congruence. Qed.

Lemma be_value_be_n n z :
  0 <= z → RLP.be_value (RLP.be_n n z) = z mod 256 ^ Z.of_nat n.
Proof.
  intros Hz. induction n as [|n IH].
  - simpl. by rewrite Z.mod_1_r.
  - cbn [RLP.be_n]. rewrite be_value_cons, be_n_length, IH, byte_to_of_Z.
    rewrite Z.shiftr_div_pow2 by lia.
    replace (2 ^ (8 * Z.of_nat n)) with (256 ^ Z.of_nat n)
      by (change 256 with (2 ^ 8); rewrite <- Z.pow_mul_r; lia).
    replace (Z.of_nat (S n)) with (Z.of_nat n + 1) by lia.
    rewrite Z.pow_add_r, Z.pow_1_r by lia.
    rewrite Z.rem_mul_r by lia. lia.
Qed.

Lemma byte_len_bounds z :
  0 < z →
  256 ^ (Z.of_nat (RLP.byte_len z) - 1) <= z < 256 ^ Z.of_nat (RLP.byte_len z)
  ∧ (0 < RLP.byte_len z)%nat.
Proof.
  intros Hz. unfold RLP.byte_len. rewrite decide_False by lia.
  pose proof (Z.log2_spec z Hz) as [Hlo Hhi].
  pose proof (Z.log2_nonneg z) as Hn.
  assert (Hq : 0 <= Z.log2 z / 8) by (apply Z.div_pos; lia).
  rewrite Z2Nat.id by lia.
  change 256 with (2 ^ 8). rewrite <- !Z.pow_mul_r by lia.
  pose proof (Z.mul_div_le (Z.log2 z) 8 ltac:(lia)) as Hle.
  pose proof (Z.mul_succ_div_gt (Z.log2 z) 8 ltac:(lia)) as Hgt.
  split_and!; [| |lia].
  - etrans; [|exact Hlo]. apply Z.pow_le_mono_r; lia.
  - eapply Z.lt_le_trans; [exact Hhi|]. apply Z.pow_le_mono_r; lia.
Qed.

Lemma be_value_be_bytes z : 0 <= z → RLP.be_value (RLP.be_bytes z) = z.
Proof.
  intros Hz. unfold RLP.be_bytes. rewrite be_value_be_n by done.
  destruct (decide (z = 0)) as [->|Hne].
  - done.
  - apply Z.mod_small. pose proof (byte_len_bounds z). lia.
Qed.

Lemma be_bytes_canonical z : RLP.canonical_int (RLP.be_bytes z) = true.
Proof.
  unfold RLP.be_bytes. destruct (decide (z <= 0)) as [Hz|Hz].
  - unfold RLP.byte_len. by rewrite decide_True.
  - pose proof (byte_len_bounds z ltac:(lia)) as [[Hlo Hhi] Hpos].
    destruct (RLP.byte_len z) as [|n]; [lia|]. cbn [RLP.be_n RLP.canonical_int].
    apply bool_decide_eq_true. intros E.
    apply (f_equal byte_to_Z) in E. rewrite byte_to_of_Z in E.
    change (byte_to_Z x00) with 0 in E.
    rewrite Z.shiftr_div_pow2 in E by lia.
    replace (2 ^ (8 * Z.of_nat n)) with (256 ^ Z.of_nat n) in E
      by (change 256 with (2 ^ 8); rewrite <- Z.pow_mul_r; lia).
    replace (Z.of_nat (S n) - 1) with (Z.of_nat n) in Hlo by lia.
    replace (Z.of_nat (S n)) with (Z.of_nat n + 1) in Hhi by lia.
    rewrite Z.pow_add_r, Z.pow_1_r in Hhi by lia.
    assert (Hp : 0 < 256 ^ Z.of_nat n) by (apply Z.pow_pos_nonneg; lia).
    assert (H1 : 1 <= z / 256 ^ Z.of_nat n).
    { apply Z.div_le_lower_bound; lia. }
    assert (H2 : z / 256 ^ Z.of_nat n < 256).
    { apply Z.div_lt_upper_bound; lia. }
    rewrite Z.mod_small in E; lia.
Qed.

Lemma be_bytes_length_uint64 z :
  0 <= z < 2 ^ 64 → (length (RLP.be_bytes z) ≤ 8)%nat.
Proof.
  intros Hz. unfold RLP.be_bytes. rewrite be_n_length.
  destruct (decide (z = 0)) as [->|Hne]; [vm_compute; lia|].
  pose proof (byte_len_bounds z ltac:(lia)) as [[Hlo _] _].
  destruct (decide (RLP.byte_len z ≤ 8)%nat) as [|Hbig]; [done|].
  assert (256 ^ 8 <= 256 ^ (Z.of_nat (RLP.byte_len z) - 1))
    by (apply Z.pow_le_mono_r; lia).
  change (256 ^ 8) with (2 ^ 64) in *. lia.
Qed.

Lemma read_size_be_bytes (n : nat) (tail : list byte) :
  (56 ≤ n)%nat →
  RLP.read_size (length (RLP.be_bytes (Z.of_nat n))) (RLP.be_bytes (Z.of_nat n) ++ tail)
  = Success (n, tail).
Proof.
  intros Hn. unfold RLP.read_size. rewrite split_at_app. cbn.
  pose proof (be_bytes_canonical (Z.of_nat n)) as Hc.
  pose proof (be_value_be_bytes (Z.of_nat n) ltac:(lia)) as Hv.
  destruct (RLP.be_bytes (Z.of_nat n)) as [|b size] eqn:E.
  - unfold RLP.be_value in Hv. simpl in Hv. lia.
  - cbn in Hc. apply bool_decide_eq_true in Hc.
    rewrite decide_False by done. rewrite Hv.
    rewrite decide_False by lia. by rewrite Nat2Z.id.
Qed.

Lemma be_bytes_nonempty z : 0 < z → (0 < length (RLP.be_bytes z))%nat.
Proof.
  intros Hz. unfold RLP.be_bytes. rewrite be_n_length.
  by apply byte_len_bounds.
Qed.

(** A head written by the encoder is read back: the tag and the payload
    size, the payload being whatever follows. *)
Lemma decode_item_head (tagv : Z) (t : RLP.tag) (p rest hd : list byte) :
  (tagv = 128 ∧ t = RLP.TString ∧ (∀ c, p = [c] → 128 <= byte_to_Z c)
   ∨ tagv = 192 ∧ t = RLP.TList) →
  RLP.head tagv (length p) = Success hd →
  RLP.decode_item ((hd ++ p) ++ rest) = Success (t, p, rest).
Proof.
  intros Ht. unfold RLP.head. case_decide as Hn.
  - intros [= <-]. cbn [app RLP.decode_item].
    rewrite byte_to_of_Z.
    destruct Ht as [(-> & -> & Hp)|(-> & ->)].
    + rewrite Z.mod_small by lia.
      rewrite decide_False, decide_True by lia.
      replace (Z.to_nat (128 + Z.of_nat (length p) - 128)) with (length p) by lia.
      rewrite split_at_app. cbn.
      destruct p as [|c [|c' p]]; try done.
      specialize (Hp c eq_refl). by rewrite decide_False by lia.
    + rewrite Z.mod_small by lia.
      rewrite !decide_False, decide_True by lia.
      replace (Z.to_nat (192 + Z.of_nat (length p) - 192)) with (length p) by lia.
      by rewrite split_at_app.
  - case_decide as Hs; [|done]. intros [= <-].
    pose proof (be_bytes_nonempty (Z.of_nat (length p)) ltac:(lia)) as Hpos.
    cbn [app RLP.decode_item]. rewrite byte_to_of_Z, <- !app_assoc.
    destruct Ht as [(-> & -> & Hp)|(-> & ->)].
    + rewrite Z.mod_small by lia.
      rewrite !decide_False, decide_True by lia.
      match goal with |- context [RLP.read_size ?k] =>
        replace k with (length (RLP.be_bytes (Z.of_nat (length p)))) by lia end.
      rewrite read_size_be_bytes by lia. cbn. by rewrite split_at_app.
    + rewrite Z.mod_small by lia.
      rewrite !decide_False by lia.
      match goal with |- context [RLP.read_size ?k] =>
        replace k with (length (RLP.be_bytes (Z.of_nat (length p)))) by lia end.
      rewrite read_size_be_bytes by lia. cbn. by rewrite split_at_app.
Qed.

Lemma decode_item_string (bs enc rest : list byte) :
  RLP.encode_string bs = Success enc →
  RLP.decode_item (enc ++ rest) = Success (RLP.TString, bs, rest).
Proof.
  unfold RLP.encode_string. intros He.
  assert (Hgen : ∀ hd, RLP.head 128 (length bs) = Success hd →
                 (∀ c, bs = [c] → 128 <= byte_to_Z c) →
                 RLP.decode_item ((hd ++ bs) ++ rest) = Success (RLP.TString, bs, rest)).
  { intros hd Hhd Hp. apply (decode_item_head 128); [|done]. left. done. }
  destruct bs as [|b [|b' bs]].
  - destruct (RLP.head 128 (length [])) as [hd|] eqn:Hhd; [|done].
    injection He as <-. by apply Hgen.
  - case_decide as Hb.
    + injection He as <-. cbn. by rewrite decide_True.
    + injection He as <-. apply (Hgen [byte_of_Z 129]); [done|].
      intros c [= <-]. lia.
  - destruct (RLP.head 128 (length (b :: b' :: bs))) as [hd|] eqn:Hhd; [|done].
    injection He as <-. by apply Hgen.
Qed.

Lemma decode_kind_encode k (v : kind_type k) (enc rest : list byte) :
  RLP.encode_kind k v = Success enc →
  RLP.decode_kind k (enc ++ rest) = Success (v, rest).
Proof.
  unfold RLP.decode_kind. destruct k as [n| | |]; cbn [RLP.encode_kind kind_type] in *.
  - case_decide as Hn; [|done]. intros He.
    rewrite (decode_item_string _ _ _ He). cbn. by rewrite decide_True.
  - case_decide as Hz; [|done]. intros He.
    rewrite (decode_item_string _ _ _ He). cbn.
    rewrite be_bytes_canonical, decide_True by (by apply be_bytes_length_uint64).
    by rewrite be_value_be_bytes by lia.
  - case_decide as Hz; [|done]. intros He.
    rewrite (decode_item_string _ _ _ He). cbn.
    by rewrite be_bytes_canonical, be_value_be_bytes.
  - intros He. by rewrite (decode_item_string _ _ _ He).
Qed.

Lemma decode_fields_encode ks (vs : fields ks) (enc rest : list byte) :
  RLP.encode_fields ks vs = Success enc →
  RLP.decode_fields ks (enc ++ rest) = Success (vs, rest).
Proof.
  revert vs enc rest. induction ks as [|k ks IH]; intros vs enc rest.
  - destruct vs. by intros [= <-].
  - destruct vs as [v vs]. cbn [RLP.encode_fields RLP.decode_fields fst snd].
    destruct (RLP.encode_kind k v) as [a|] eqn:Ha; [|done]. cbn.
    destruct (RLP.encode_fields ks vs) as [b|] eqn:Hb; [|done]. cbn.
    intros [= <-]. rewrite <- app_assoc.
    rewrite (decode_kind_encode _ _ _ _ Ha). cbn.
    by rewrite (IH _ _ _ Hb).
Qed.

Lemma decode_encode ks (vs : fields ks) (enc rest : list byte) :
  RLP.encode ks vs = Success enc →
  RLP.decode ks (enc ++ rest) = Success (vs, rest).
Proof.
  unfold RLP.encode, RLP.decode.
  destruct (RLP.encode_fields ks vs) as [payload|] eqn:Hp; [|done]. cbn.
  destruct (RLP.head 192 (length payload)) as [hd|] eqn:Hh; [|done]. cbn.
  intros [= <-].
  rewrite (decode_item_head 192 RLP.TList payload rest hd) by (done || by right).
  cbn. rewrite <- (app_nil_r payload) at 1.
  by rewrite (decode_fields_encode _ _ _ _ Hp).
Qed.

#[global] Instance RLP_laws : CodecLaws (H := RLP.codec).
Proof. intros ks vs bs rest. apply decode_encode. Qed.

(** ** Genesis, wrap-around and the chain of numbers *)

Lemma Header_Hash_spec `{Codec, Hasher} (m : mem) (l : loc) (h : Header)
    (sig : list byte) :
  headers m !! l = Some h → readable m h sig → hash_cached m h sig →
  ∃ m', Header_Hash l m = (Ok (block_hash h sig), m').
Proof.
  intros Hl Hs Hc. destruct (hash (cache h)) as [p|] eqn:Hp.
  - exists m. eapply Header_Hash_cached; eauto.
  - eexists. by apply Header_Hash_compute.
Qed.

Lemma Header_Number_genesis h :
  ParentHash (content h) = zero_hash → Header_Number h = 0.
Proof. intros E. unfold Header_Number. by rewrite decide_True. Qed.

Lemma Header_Number_child h :
  ParentHash (content h) ≠ zero_hash →
  Header_Number h = wrap32 (Number (ParentHash (content h)) + 1).
Proof. intros E. unfold Header_Number. by rewrite decide_False. Qed.

(** C7.  A header whose parent hash is the all-zero hash has number 0, and
    the first four bytes of its hash are zero. *)
Theorem genesis_Number_zero `{Codec, Hasher} (m : mem) (l : loc) (h : Header)
    (sig : list byte) :
  headers m !! l = Some h → readable m h sig → hash_cached m h sig →
  ParentHash (content h) = zero_hash →
  Header_Number h = 0 ∧
  ∃ sum m', Header_Hash l m = (Ok sum, m') ∧ take 4 sum = [x00; x00; x00; x00].
Proof.
  intros Hl Hs Hc Hz. pose proof (Header_Number_genesis h Hz) as Hn.
  split; [done|].
  destruct (Header_Hash_spec m l h sig Hl Hs Hc) as [m' Hrun].
  exists (block_hash h sig), m'. split; [done|].
  by rewrite block_hash_take, Hn.
Qed.

Lemma genesis_Number_zero_witness :
  let h := Fixture.block0 in
  let m := Fixture.store h in
  Header_Number h = 0 ∧
  ∃ sum m',
    Header_Hash (H := RLP.codec) (H0 := Fixture.checksum) 1%positive m = (Ok sum, m') ∧
    take 4 sum = [x00; x00; x00; x00].
Proof.
  intros h m.
  apply (genesis_Number_zero m 1%positive h []).
  - reflexivity.
  - reflexivity.
  - intros p Hp. discriminate Hp.
  - reflexivity.
Defined.

(** C10.  The increment is 32-bit arithmetic without a check: a header
    whose parent hash starts with [ff ff ff ff] is no genesis header, its
    parent has number [2^32 - 1], and its own number is 0. *)
Theorem Number_wraps (h : Header) :
  take 4 (ParentHash (content h)) = [xff; xff; xff; xff] →
  ParentHash (content h) ≠ zero_hash ∧
  Number (ParentHash (content h)) = 2 ^ 32 - 1 ∧
  Header_Number h = 0.
Proof.
  intros Hff.
  assert (Hnz : ParentHash (content h) ≠ zero_hash).
  { intros E. rewrite E in Hff. discriminate Hff. }
  assert (Hn : Number (ParentHash (content h)) = 2 ^ 32 - 1).
  { unfold Number. rewrite Hff. reflexivity. }
  split_and!; [done..|].
  rewrite Header_Number_child, Hn by done. reflexivity.
Qed.

Lemma Number_wraps_witness :
  ParentHash (content Fixture.last_number) ≠ zero_hash ∧
  Number (ParentHash (content Fixture.last_number)) = 4294967295 ∧
  Header_Number Fixture.last_number = 0.
Proof. apply (Number_wraps Fixture.last_number). reflexivity. Defined.

Lemma parent_of_Number `{Codec, Hasher} (parent child : Header) :
  parent_of parent child →
  Header_Number child = wrap32 (Header_Number parent + 1).
Proof.
  intros (Hnz & m & l & sig & m' & Hl & Hs & Hc & Hrun).
  destruct (Header_Hash_spec m l parent sig Hl Hs Hc) as [m'' Hrun'].
  rewrite Hrun' in Hrun. injection Hrun as Hph _.
  rewrite Header_Number_child by done.
  rewrite <- Hph. unfold block_hash. rewrite Number_be32.
  by rewrite (wrap32_small (Header_Number parent)) by apply Header_Number_range.
Qed.

(** C2.  When the parent hash of [child] is what [Hash] returns on
    [parent], and is not the all-zero hash that marks a genesis header,
    [child.Number()] is [parent.Number() + 1] in [uint32]; along a chain of
    any length the numbers go up by the length of the chain; and the number
    is read off the header's own parent hash, whatever else the header or
    the memory holds. *)
Theorem chain_consistency `{Codec, Hasher} :
  (∀ m l parent sig sum m' child,
     headers m !! l = Some parent → readable m parent sig →
     hash_cached m parent sig →
     Header_Hash l m = (Ok sum, m') →
     ParentHash (content child) = sum → sum ≠ zero_hash →
     Header_Number child = wrap32 (Header_Number parent + 1)) ∧
  (∀ n first last, nsteps parent_of n first last →
     Header_Number last = wrap32 (Header_Number first + Z.of_nat n)) ∧
  (∀ h1 h2, ParentHash (content h1) = ParentHash (content h2) →
     Header_Number h1 = Header_Number h2).
Proof.
  split_and!.
  - intros m l parent sig sum m' child Hl Hs Hc Hrun Hph Hnz.
    apply parent_of_Number. split; [congruence|].
    exists m, l, sig, m'. rewrite Hph. by split_and!.
  - intros n first last Hsteps.
    induction Hsteps as [x|n x y z Hxy Hsteps IH].
    + rewrite Z.add_0_r. symmetry. apply wrap32_small, Header_Number_range.
    + rewrite IH, (parent_of_Number _ _ Hxy).
      unfold wrap32. rewrite Z.add_mod_idemp_l by lia. f_equal. lia.
  - intros h1 h2 E. unfold Header_Number. by rewrite E.
Qed.

Lemma Fixture_link (parent child : Header) :
  content parent = Fixture.content_on (ParentHash (content parent)) SNil →
  cache parent = {| hash := None; signer := None |} →
  ParentHash (content child) = Fixture.hash_of parent →
  ParentHash (content child) ≠ zero_hash →
  parent_of (H := RLP.codec) (H0 := Fixture.checksum) parent child.
Proof.
  intros Hc Hk Hp Hnz. split; [assumption|].
  exists (Fixture.store parent), 1%positive, [].
  assert (Hl : headers (Fixture.store parent) !! 1%positive = Some parent).
  { unfold Fixture.store. cbn [headers]. apply lookup_singleton_eq. }
  assert (Hs : readable (Fixture.store parent) parent []).
  { unfold readable. rewrite Hc. reflexivity. }
  assert (Hn : hash (cache parent) = None).
  { rewrite Hk. reflexivity. }
  pose proof (Header_Hash_compute (H := RLP.codec) (H0 := Fixture.checksum)
                (Fixture.store parent) 1%positive parent [] Hl Hs Hn) as Hrun.
  cbv zeta in Hrun. rewrite Hp. unfold Fixture.hash_of.
  eexists. split; [exact Hl|]. split; [exact Hs|]. split.
  - intros p Hcached. congruence.
  - exact Hrun.
Qed.

Lemma chain_consistency_witness :
  nsteps (parent_of (H := RLP.codec) (H0 := Fixture.checksum)) 3
         Fixture.block0 Fixture.block3 ∧
  Header_Number Fixture.block1 = wrap32 (Header_Number Fixture.block0 + 1) ∧
  Header_Number Fixture.block3 = wrap32 (Header_Number Fixture.block0 + 3).
Proof.
  assert (H01 : parent_of (H := RLP.codec) (H0 := Fixture.checksum)
                  Fixture.block0 Fixture.block1).
  { apply Fixture_link; [reflexivity..|]. intros E. vm_compute in E. discriminate E. }
  assert (H12 : parent_of (H := RLP.codec) (H0 := Fixture.checksum)
                  Fixture.block1 Fixture.block2).
  { apply Fixture_link; [reflexivity..|]. intros E. vm_compute in E. discriminate E. }
  assert (H23 : parent_of (H := RLP.codec) (H0 := Fixture.checksum)
                  Fixture.block2 Fixture.block3).
  { apply Fixture_link; [reflexivity..|]. intros E. vm_compute in E. discriminate E. }
  assert (Hchain : nsteps (parent_of (H := RLP.codec) (H0 := Fixture.checksum)) 3
                     Fixture.block0 Fixture.block3).
  { eapply nsteps_l; [exact H01|]. eapply nsteps_l; [exact H12|].
    eapply nsteps_l; [exact H23|]. apply nsteps_O. }
  split_and!.
  - exact Hchain.
  - destruct H01 as (Hnz & m & l & sig & m' & Hl & Hs & Hc & Hrun).
    exact (proj1 chain_consistency m l Fixture.block0 sig _ m' Fixture.block1
             Hl Hs Hc Hrun eq_refl Hnz).
  - exact (proj1 (proj2 chain_consistency) _ _ _ Hchain).
Defined.

(** ** What the signer commits to *)

Lemma Header_HashForSigning_run `{Codec, Hasher} (m : mem) (l : loc) (h : Header) :
  headers m !! l = Some h →
  Header_HashForSigning l m = (Ok (signing_hash (content h)), m).
Proof.
  intros Hl. unfold Header_HashForSigning, mbind, M_bind, load_header.
  by rewrite Hl.
Qed.

Lemma Sum_into_full (d : list byte) :
  length d = 32%nat → Sum_into d zero_hash = d.
Proof.
  intros Hd. unfold Sum_into. rewrite decide_True by (rewrite Hd; done).
  rewrite drop_ge by (rewrite Hd; done). apply app_nil_r.
Qed.

(** A lawful codec writes different bytes for different values. *)
Lemma rlp_Encode_inj `{CodecLaws} ks (v1 v2 : fields ks) (bs : list byte) :
  rlp_Encode ks v1 = Success bs → rlp_Encode ks v2 = Success bs → v1 = v2.
Proof.
  intros E1 E2.
  pose proof (rlp_roundtrip ks v1 bs [] E1) as D1.
  pose proof (rlp_roundtrip ks v2 bs [] E2) as D2.
  congruence.
Qed.

(** C3.  [HashForSigning] returns 32 bytes that do not depend on
    [TotalScore] nor on [Signature].  They depend on [Timestamp]: with a
    lawful codec that accepts both field lists, two headers of different
    timestamps hand different bytes to the hasher, and have different
    hashes for signing unless the hasher maps the two encodings to one
    digest. *)
Theorem signing_exclusion `{Codec, Hasher} (m1 m2 : mem) (l1 l2 : loc)
    (h1 h2 : Header) :
  headers m1 !! l1 = Some h1 → headers m2 !! l2 = Some h2 →
  ∃ s1 s2,
    Header_HashForSigning l1 m1 = (Ok s1, m1) ∧
    Header_HashForSigning l2 m2 = (Ok s2, m2) ∧
    length s1 = 32%nat ∧ length s2 = 32%nat ∧
    (same_but_TotalScore (content h1) (content h2) → s1 = s2) ∧
    (same_but_Signature (content h1) (content h2) → s1 = s2) ∧
    (Timestamp (content h1) ≠ Timestamp (content h2) →
     CodecLaws →
     ∀ b1 b2,
       rlp_Encode signingKinds (signing_fields (content h1)) = Success b1 →
       rlp_Encode signingKinds (signing_fields (content h2)) = Success b2 →
       b1 ≠ b2 ∧ (no_collision b1 b2 → s1 ≠ s2)).
Proof.
  intros Hl1 Hl2.
  exists (signing_hash (content h1)), (signing_hash (content h2)).
  split_and!.
  - by apply Header_HashForSigning_run.
  - by apply Header_HashForSigning_run.
  - apply signing_hash_length.
  - apply signing_hash_length.
  - intros (Eph & Ets & Egl & Egu & Ebf & Etr & Esr & Err & _).
    unfold signing_hash, signing_fields.
    by rewrite Eph, Ets, Egl, Egu, Ebf, Etr, Esr, Err.
  - intros (Eph & Ets & _ & Egl & Egu & Ebf & Etr & Esr & Err).
    unfold signing_hash, signing_fields.
    by rewrite Eph, Ets, Egl, Egu, Ebf, Etr, Esr, Err.
  - intros Hts Hlaws b1 b2 E1 E2.
    assert (Hb : b1 ≠ b2).
    { intros ->. pose proof (rlp_Encode_inj _ _ _ _ E1 E2) as Ef.
      apply Hts. unfold signing_fields in Ef. congruence. }
    split; [exact Hb|].
    intros (Hd1 & Hd2 & Hinj).
    unfold signing_hash. rewrite E1, E2, !Sum_into_full by assumption.
    intros Hd. by apply Hb, Hinj.
Qed.

Lemma signing_exclusion_witness :
  ∃ s1 s2,
    Header_HashForSigning (H := RLP.codec) (H0 := Fixture.checksum)
      1%positive Fixture.two_headers = (Ok s1, Fixture.two_headers) ∧
    Header_HashForSigning (H := RLP.codec) (H0 := Fixture.checksum)
      2%positive Fixture.two_headers = (Ok s2, Fixture.two_headers) ∧
    s1 ≠ s2.
Proof.
  assert (Hl1 : headers Fixture.two_headers !! 1%positive = Some Fixture.block0)
    by (vm_compute; reflexivity).
  assert (Hl2 : headers Fixture.two_headers !! 2%positive
                = Some (Header_of_content Fixture.later))
    by (vm_compute; reflexivity).
  destruct (signing_exclusion (H := RLP.codec) (H0 := Fixture.checksum)
              _ _ _ _ _ _ Hl1 Hl2)
    as (s1 & s2 & R1 & R2 & _ & _ & _ & _ & Hdiff).
  exists s1, s2. split; [exact R1|]. split; [exact R2|].
  apply (Hdiff ltac:(discriminate) RLP_laws
           (Fixture.signing_bytes Fixture.genesis)
           (Fixture.signing_bytes Fixture.later)
           ltac:(vm_compute; reflexivity) ltac:(vm_compute; reflexivity)).
  split; [vm_compute; reflexivity|]. split; [vm_compute; reflexivity|].
  intros E. vm_compute in E. discriminate E.
Defined.

(** ** Attaching a signature *)

Lemma slice_view_length cs s bs :
  slice_view cs s = Some bs → length bs = slice_len s.
Proof.
  destruct s as [|a off n]; simpl.
  - by intros [= <-].
  - destruct (cs !! a) as [arr|]; [|done]. case_decide; [|done].
    intros [= <-]. rewrite length_take, length_drop. lia.
Qed.

Lemma append_nil_run (m : mem) (s : slice) (bs : list byte) :
  slice_view (cells m) s = Some bs →
  append_nil s m =
    match bs with
    | [] => (Ok SNil, m)
    | _ => let a := fresh (dom (cells m)) in
           (Ok (Slice a 0 (length bs)),
            {| cells := <[a := bs]> (cells m); headers := headers m |})
    end.
Proof.
  intros Hs. unfold append_nil, mbind, M_bind, read_slice. rewrite Hs.
  by destruct bs.
Qed.

Lemma fresh_cell_None (m : mem) : cells m !! fresh (dom (cells m)) = None.
Proof. apply not_elem_of_dom, is_fresh. Qed.

Lemma fresh_header_None (m : mem) : headers m !! fresh (dom (headers m)) = None.
Proof. apply not_elem_of_dom, is_fresh. Qed.

(** What [WithSignature] does to the memory: at most one new cell, the copy
    of the signature, and one new header object. *)
Lemma Header_WithSignature_run (m : mem) (l : loc) (h : Header) (sig : slice)
    (bs : list byte) :
  headers m !! l = Some h → slice_view (cells m) sig = Some bs →
  ∃ s cs,
    Header_WithSignature l sig m =
      (Ok (fresh (dom (headers m))),
       {| cells := cs;
          headers := <[fresh (dom (headers m)) :=
                         Header_of_content (set_Signature (content h) s)]> (headers m) |}) ∧
    slice_len s = length bs ∧
    (∀ p v, cells m !! p = Some v → cs !! p = Some v) ∧
    (∀ cs', (∀ p, cells m !! p = None → cs' !! p = cs !! p) →
            slice_view cs' s = Some bs).
Proof.
  intros Hl Hs. unfold Header_WithSignature, mbind at 1, M_bind at 1, load_header.
  rewrite Hl. unfold mbind, M_bind. rewrite (append_nil_run m sig bs Hs).
  destruct bs as [|b bs].
  - exists SNil, (cells m). split_and!; try done.
  - set (a := fresh (dom (cells m))).
    exists (Slice a 0 (length (b :: bs))), (<[a := b :: bs]> (cells m)).
    split_and!; try done.
    + intros p v Hp. rewrite lookup_insert_ne; [done|].
      intros E. pose proof (fresh_cell_None m) as Hf. fold a in Hf.
      rewrite E in Hf. congruence.
    + intros cs' Hcs'. unfold slice_view.
      rewrite (Hcs' a (fresh_cell_None m)), lookup_insert_eq.
      rewrite decide_True by (simpl; lia).
      by rewrite drop_0, firstn_all.
Qed.

(** C4.  [WithSignature] allocates a new header object: its content is the
    receiver's except for the signature, which reads the bytes of [sig]; its
    caches are unset; the receiver and every other header and cell that
    was in memory are as before; and whatever is later stored into the
    cells that existed at the call, among them the array behind [sig], the
    new header's signature reads the same bytes. *)
Theorem WithSignature_frame (m : mem) (l : loc) (h : Header) (sig : slice)
    (bs : list byte) :
  headers m !! l = Some h → slice_view (cells m) sig = Some bs →
  ∃ l' m' h',
    Header_WithSignature l sig m = (Ok l', m') ∧
    headers m !! l' = None ∧ headers m' !! l' = Some h' ∧
    same_but_Signature (content h) (content h') ∧
    slice_view (cells m') (Signature (content h')) = Some bs ∧
    cache h' = {| hash := None; signer := None |} ∧
    headers m' !! l = Some h ∧
    (∀ k, k ≠ l' → headers m' !! k = headers m !! k) ∧
    (∀ p v, cells m !! p = Some v → cells m' !! p = Some v) ∧
    (∀ cs', (∀ p, cells m !! p = None → cs' !! p = cells m' !! p) →
            slice_view cs' (Signature (content h')) = Some bs) ∧
    (∀ i b m'', slice_store sig i b m' = (Ok tt, m'') →
            headers m'' !! l' = Some h' ∧
            slice_view (cells m'') (Signature (content h')) = Some bs).
Proof.
  intros Hl Hs.
  destruct (Header_WithSignature_run m l h sig bs Hl Hs)
    as (s & cs & Hrun & Hlen & Hkeep & Hcopy).
  pose proof (fresh_header_None m) as Hfresh.
  set (l' := fresh (dom (headers m))) in *.
  eexists l', _, _. split; [exact Hrun|]. cbn [headers cells].
  split_and!.
  - exact Hfresh.
  - apply lookup_insert_eq.
  - done.
  - apply Hcopy. done.
  - done.
  - rewrite lookup_insert_ne; [done|]. intros E. rewrite E in Hfresh. congruence.
  - intros k Hk. by rewrite lookup_insert_ne.
  - exact Hkeep.
  - exact Hcopy.
  - intros i b m'' Hstore. unfold slice_store in Hstore. cbn [cells headers] in Hstore.
    destruct sig as [|a off n]; [done|].
    destruct (cs !! a) as [arr|] eqn:Ha; [|done].
    case_decide; [|done]. injection Hstore as <-. cbn [headers cells].
    split; [apply lookup_insert_eq|].
    apply Hcopy. intros p Hp. apply lookup_insert_ne. intros <-.
    simpl in Hs. destruct (cells m !! a); [done|done].
Qed.

Lemma WithSignature_frame_witness :
  let m := Fixture.with_buffer in
  let h := set_hash Fixture.block0 1%positive in
  let sig := Slice 5%positive 1 3 in
  let bs := [x0b; x0c; x0d] in
  ∃ l' m' h',
    Header_WithSignature 1%positive sig m = (Ok l', m') ∧
    headers m !! l' = None ∧ headers m' !! l' = Some h' ∧
    same_but_Signature (content h) (content h') ∧
    slice_view (cells m') (Signature (content h')) = Some bs ∧
    cache h' = {| hash := None; signer := None |} ∧
    headers m' !! 1%positive = Some h ∧
    (∀ k, k ≠ l' → headers m' !! k = headers m !! k) ∧
    (∀ p v, cells m !! p = Some v → cells m' !! p = Some v) ∧
    (∀ cs', (∀ p, cells m !! p = None → cs' !! p = cells m' !! p) →
            slice_view cs' (Signature (content h')) = Some bs) ∧
    (∀ i b m'', slice_store sig i b m' = (Ok tt, m'') →
            headers m'' !! l' = Some h' ∧
            slice_view (cells m'') (Signature (content h')) = Some bs).
Proof.
  intros m h sig bs.
  apply (WithSignature_frame m 1%positive h sig bs).
  - vm_compute. reflexivity.
  - vm_compute. reflexivity.
Defined.

(** ** Signed and unsigned headers *)

(** C8, as stated, fails: [WithSignature] with an empty signature, on a
    signed header, returns an unsigned header. *)
Lemma WithSignature_can_unsign :
  signed_at (Fixture.signed_store, 1%positive) ∧
  WithSignature_step SNil (Fixture.signed_store, 1%positive)
                          (Fixture.unsigned_again, 2%positive) ∧
  ¬ signed_at (Fixture.unsigned_again, 2%positive) ∧
  ¬ (∀ s s', signed_at s →
             rtc (λ a b, ∃ sig, WithSignature_step sig a b) s s' →
             signed_at s').
Proof.
  assert (H1 : signed_at (Fixture.signed_store, 1%positive)).
  { exists Fixture.signed_genesis. split; [vm_compute; reflexivity|].
    unfold signed. simpl. lia. }
  assert (H2 : WithSignature_step SNil (Fixture.signed_store, 1%positive)
                 (Fixture.unsigned_again, 2%positive)).
  { unfold WithSignature_step. vm_compute. reflexivity. }
  assert (H3 : ¬ signed_at (Fixture.unsigned_again, 2%positive)).
  { intros (h & Hh & Hs). vm_compute in Hh. injection Hh as <-.
    apply Hs. reflexivity. }
  split_and!; [exact H1|exact H2|exact H3|].
  intros Hall. apply H3, (Hall _ _ H1).
  eapply rtc_l; [|apply rtc_refl]. exists SNil. exact H2.
Qed.

Lemma WithSignature_step_inv (sig : slice) (s s' : mem * loc) :
  WithSignature_step sig s s' →
  ∃ h bs h',
    headers s.1 !! s.2 = Some h ∧ slice_view (cells s.1) sig = Some bs ∧
    headers s'.1 !! s'.2 = Some h' ∧
    slice_len (Signature (content h')) = slice_len sig ∧
    headers s'.1 !! s.2 = Some h.
Proof.
  destruct s as [m l], s' as [m' l']. unfold WithSignature_step. cbn [fst snd].
  intros Hrun.
  destruct (headers m !! l) as [h|] eqn:Hl; last first.
  { unfold Header_WithSignature, mbind, M_bind, load_header in Hrun.
    by rewrite Hl in Hrun. }
  destruct (slice_view (cells m) sig) as [bs|] eqn:Hs; last first.
  { unfold Header_WithSignature, mbind, M_bind, load_header, append_nil,
      mbind, M_bind, read_slice in Hrun.
    by rewrite Hl, Hs in Hrun. }
  destruct (Header_WithSignature_run m l h sig bs Hl Hs)
    as (s & cs & Hrun' & Hlen & _ & _).
  rewrite Hrun' in Hrun. injection Hrun as <- <-. cbn [headers].
  exists h, bs. eexists. split_and!; [done..| | |].
  - apply lookup_insert_eq.
  - simpl. rewrite Hlen. exact (slice_view_length _ _ _ Hs).
  - rewrite lookup_insert_ne; [done|]. intros E.
    pose proof (fresh_header_None m) as Hf. rewrite E in Hf. congruence.
Qed.

(** C8, amended.  The header [WithSignature(sig)] returns is signed exactly
    when [sig] is not empty; so every header reached through calls of
    [WithSignature] with signatures that are not empty is signed; and the
    receiver of a call is in the memory after it what it was before, signed
    if it was signed. *)
Theorem WithSignature_signed :
  (∀ sig s s', WithSignature_step sig s s' →
     (signed_at s' ↔ slice_len sig ≠ 0%nat)) ∧
  (∀ s s', signed_at s →
     rtc (λ a b, ∃ sig, slice_len sig ≠ 0%nat ∧ WithSignature_step sig a b) s s' →
     signed_at s') ∧
  (∀ sig s s', WithSignature_step sig s s' →
     signed_at s → signed_at (s'.1, s.2)).
Proof.
  assert (Hnew : ∀ sig s s', WithSignature_step sig s s' →
                 (signed_at s' ↔ slice_len sig ≠ 0%nat)).
  { intros sig s s' Hstep.
    destruct (WithSignature_step_inv sig s s' Hstep)
      as (h & bs & h' & Hl & Hs & Hl' & Hlen & _).
    unfold signed_at, signed. split.
    - intros (h'' & Hh'' & Hsigned). rewrite Hl' in Hh''. injection Hh'' as <-.
      by rewrite <- Hlen.
    - intros Hne. exists h'. split; [done|]. by rewrite Hlen. }
  split_and!.
  - exact Hnew.
  - intros s s' Hs Hsteps. induction Hsteps as [|x y z (sig & Hne & Hstep) _ IH].
    + done.
    + apply IH. by apply (Hnew sig x y).
  - intros sig s s' Hstep (h & Hl & Hsigned).
    destruct (WithSignature_step_inv sig s s' Hstep)
      as (h0 & bs & h' & Hl0 & _ & _ & _ & Hkeep).
    exists h. cbn [fst snd]. split; [|done]. congruence.
Qed.

Lemma WithSignature_signed_witness :
  let sig := Slice 2%positive 0 65 in
  let s := (Fixture.signed_store, 1%positive) in
  let s' := (snd (Header_WithSignature 1%positive sig Fixture.signed_store),
             2%positive) in
  signed_at s' ∧ signed_at (s'.1, 1%positive).
Proof.
  intros sig s s'.
  assert (Hstep : WithSignature_step sig s s').
  { unfold WithSignature_step. vm_compute. reflexivity. }
  assert (Hs : signed_at s).
  { exists Fixture.signed_genesis. split; [vm_compute; reflexivity|].
    unfold signed. simpl. lia. }
  split.
  - apply (proj1 (proj2 WithSignature_signed) s s' Hs).
    eapply rtc_l; [|apply rtc_refl]. exists sig. split; [simpl; lia|exact Hstep].
  - exact (proj2 (proj2 WithSignature_signed) sig s s' Hstep Hs).
Defined.

(** ** Encoding and decoding *)

Lemma content_fields_fields_content (fs : fields headerKinds) (s : slice) :
  content_fields (fields_content fs s) (fields_signature fs) = fs.
Proof.
  destruct fs as (ph & ts & sc & gl & gu & bf & tr & sr & rr & sig & []).
  reflexivity.
Qed.

Lemma Header_DecodeRLP_fail `{Codec} (m : mem) (l : loc) (s : list byte) msg :
  rlp_Decode headerKinds s = Failure msg →
  Header_DecodeRLP l s m = (Err (CodecError msg), m).
Proof. intros Hd. unfold Header_DecodeRLP. by rewrite Hd. Qed.

Lemma Header_DecodeRLP_ok `{Codec} (m : mem) (l : loc) (s : list byte)
    (h : Header) (fs : fields headerKinds) (rest : list byte) :
  headers m !! l = Some h →
  rlp_Decode headerKinds s = Success (fs, rest) →
  let a := fresh (dom (cells m)) in
  let sig := fields_signature fs in
  Header_DecodeRLP l s m =
    (Ok rest,
     {| cells := <[a := sig]> (cells m);
        headers := <[l := Header_of_content
                             (fields_content fs (Slice a 0 (length sig)))]>
                     (headers m) |}).
Proof.
  intros Hl Hd a sig. unfold Header_DecodeRLP. rewrite Hd.
  unfold mbind, M_bind, new_cell, store_header. cbn [headers cells].
  by rewrite Hl.
Qed.

Lemma Header_DecodeRLP_no_Err `{Codec} (m m' : mem) (l : loc) (s : list byte)
    (fs : fields headerKinds) (rest : list byte) e :
  rlp_Decode headerKinds s = Success (fs, rest) →
  Header_DecodeRLP l s m ≠ (Err e, m').
Proof.
  intros Hd. unfold Header_DecodeRLP. rewrite Hd.
  unfold mbind, M_bind, new_cell, store_header. cbn [headers cells].
  by destruct (headers m !! l).
Qed.

Lemma decoded_signature_view (cs : gmap loc (list byte)) (a : loc)
    (fs : fields headerKinds) :
  slice_view (<[a := fields_signature fs]> cs)
    (Signature (fields_content fs (Slice a 0 (length (fields_signature fs)))))
  = Some (fields_signature fs).
Proof.
  replace (Signature (fields_content fs (Slice a 0 (length (fields_signature fs)))))
    with (Slice a 0 (length (fields_signature fs)))
    by (by destruct fs as (? & ? & ? & ? & ? & ? & ? & ? & ? & ? & [])).
  unfold slice_view. rewrite lookup_insert_eq, decide_True by (simpl; lia).
  by rewrite drop_0, firstn_all.
Qed.

Lemma decoded_content_value (cs : gmap loc (list byte)) (hs : gmap loc Header)
    (a : loc) (fs : fields headerKinds) :
  content_value {| cells := <[a := fields_signature fs]> cs; headers := hs |}
    (Header_of_content
       (fields_content fs (Slice a 0 (length (fields_signature fs)))))
  = Some fs.
Proof.
  unfold content_value. cbn [content Header_of_content cells].
  rewrite decoded_signature_view. cbn [fmap option_fmap option_map].
  f_equal. apply content_fields_fields_content.
Qed.

(** C9.  When the codec rejects the input, [DecodeRLP] returns its error
    and the memory, the receiver in it, is what it was; an error is
    returned in that case only; and when the codec accepts the input the
    receiver holds all the decoded fields and empty caches. *)
Theorem DecodeRLP_all_or_nothing `{Codec} (m : mem) (l : loc) (s : list byte) :
  (∀ msg, rlp_Decode headerKinds s = Failure msg →
     Header_DecodeRLP l s m = (Err (CodecError msg), m)) ∧
  (∀ e m', Header_DecodeRLP l s m = (Err e, m') →
     m' = m ∧ ∃ msg, e = CodecError msg ∧ rlp_Decode headerKinds s = Failure msg) ∧
  (∀ h fs rest, headers m !! l = Some h →
     rlp_Decode headerKinds s = Success (fs, rest) →
     ∃ m' h',
       Header_DecodeRLP l s m = (Ok rest, m') ∧
       headers m' !! l = Some h' ∧
       content_value m' h' = Some fs ∧
       cache h' = {| hash := None; signer := None |}).
Proof.
  split_and!.
  - intros msg Hd. by apply Header_DecodeRLP_fail.
  - intros e m' Hrun.
    destruct (rlp_Decode headerKinds s) as [[fs rest]|msg] eqn:Hd.
    + by destruct (Header_DecodeRLP_no_Err m m' l s fs rest e Hd).
    + rewrite (Header_DecodeRLP_fail m l s msg Hd) in Hrun.
      injection Hrun as <- <-. split; [done|]. by exists msg.
  - intros h fs rest Hl Hd.
    eexists _, _. split; [by apply (Header_DecodeRLP_ok m l s h fs rest)|].
    cbn [headers]. split_and!.
    + apply lookup_insert_eq.
    + apply decoded_content_value.
    + done.
Qed.

Lemma DecodeRLP_all_or_nothing_witness :
  Header_DecodeRLP (H := RLP.codec) 1%positive Fixture.truncated Fixture.with_buffer
  = (Err (CodecError "unexpected EOF"), Fixture.with_buffer).
Proof.
  apply (proj1 (DecodeRLP_all_or_nothing (H := RLP.codec)
                  Fixture.with_buffer 1%positive Fixture.truncated)).
  vm_compute. reflexivity.
Defined.

(** C6.  [EncodeRLP] writes the encoding of the content fields, whatever
    the caches hold; and when it has written [bs], [DecodeRLP] on a stream
    that starts with [bs] leaves in its receiver a header of the same
    content, with empty caches. *)
Theorem EncodeRLP_DecodeRLP_roundtrip `{CodecLaws} (m : mem) (l : loc)
    (h : Header) (sig : list byte) :
  headers m !! l = Some h → readable m h sig →
  Header_EncodeRLP l m =
    (match rlp_Encode headerKinds (content_fields (content h) sig) with
     | Success bs => Ok bs
     | Failure msg => Err (CodecError msg)
     end, m) ∧
  (∀ m0 l0 h0, headers m0 !! l0 = Some h0 →
     content_value m0 h0 = content_value m h →
     (Header_EncodeRLP l0 m0).1 = (Header_EncodeRLP l m).1) ∧
  (∀ bs, (Header_EncodeRLP l m).1 = Ok bs →
     ∀ m2 l2 h2 rest, headers m2 !! l2 = Some h2 →
       ∃ m2' h2',
         Header_DecodeRLP l2 (bs ++ rest) m2 = (Ok rest, m2') ∧
         headers m2' !! l2 = Some h2' ∧
         content_value m2' h2' = content_value m h ∧
         cache h2' = {| hash := None; signer := None |}).
Proof.
  intros Hl Hs.
  pose proof (Header_EncodeRLP_run m l h sig Hl Hs) as Hrun.
  assert (Hv : content_value m h = Some (content_fields (content h) sig)).
  { unfold content_value. unfold readable in Hs. by rewrite Hs. }
  split_and!.
  - exact Hrun.
  - intros m0 l0 h0 Hl0 Hv0. rewrite Hv in Hv0. unfold content_value in Hv0.
    destruct (slice_view (cells m0) (Signature (content h0))) as [sig0|] eqn:Hs0;
      [|done].
    cbn [fmap option_fmap option_map] in Hv0.
    assert (E : content_fields (content h0) sig0 = content_fields (content h) sig)
      by congruence.
    rewrite (Header_EncodeRLP_run m0 l0 h0 sig0 Hl0 Hs0), Hrun. cbn [fst].
    by rewrite E.
  - intros bs Hbs m2 l2 h2 rest Hl2. rewrite Hrun in Hbs. cbn [fst] in Hbs.
    destruct (rlp_Encode headerKinds (content_fields (content h) sig))
      as [bs'|] eqn:He; [|done].
    injection Hbs as ->.
    pose proof (rlp_roundtrip _ _ _ rest He) as Hd.
    eexists _, _.
    split; [by apply (Header_DecodeRLP_ok m2 l2 _ h2 _ rest Hl2 Hd)|].
    cbn [headers]. split_and!.
    + apply lookup_insert_eq.
    + rewrite Hv. apply decoded_content_value.
    + done.
Qed.

Lemma EncodeRLP_DecodeRLP_roundtrip_witness :
  let m := Fixture.with_buffer in
  let h := set_hash Fixture.block0 1%positive in
  (Header_EncodeRLP (H := RLP.codec) 1%positive m).1
    = Ok (Fixture.encoded Fixture.genesis []) ∧
  ∃ m2' h2',
    Header_DecodeRLP (H := RLP.codec) 1%positive
      (Fixture.encoded Fixture.genesis [] ++ [x2a]) m = (Ok [x2a], m2') ∧
    headers m2' !! 1%positive = Some h2' ∧
    content_value m2' h2' = content_value m h ∧
    cache h2' = {| hash := None; signer := None |}.
Proof.
  intros m h.
  assert (Hl : headers m !! 1%positive = Some h) by (vm_compute; reflexivity).
  assert (Hs : readable m h []) by reflexivity.
  assert (He : (Header_EncodeRLP (H := RLP.codec) 1%positive m).1
               = Ok (Fixture.encoded Fixture.genesis []))
    by (vm_compute; reflexivity).
  split; [exact He|].
  exact (proj2 (proj2 (EncodeRLP_DecodeRLP_roundtrip (H := RLP.codec)
                         m 1%positive h [] Hl Hs))
           _ He m 1%positive h [x2a] Hl).
Defined.

(** ** The signer *)

Section Signer.
Context `{Codec, Hasher, Recover}.

Lemma Header_Signer_unsigned (m : mem) (l : loc) (h : Header) :
  headers m !! l = Some h → slice_len (Signature (content h)) = 0%nat →
  Header_Signer l m = (Err NotSigned, m).
Proof.
  intros Hl Hz. unfold Header_Signer, mbind, M_bind, load_header.
  rewrite Hl. by rewrite decide_True.
Qed.

Lemma Header_Signer_cached (m : mem) (l : loc) (h : Header) (q : loc)
    (a : list byte) :
  headers m !! l = Some h → slice_len (Signature (content h)) ≠ 0%nat →
  signer (cache h) = Some q → cells m !! q = Some a →
  let p := fresh (dom (cells m)) in
  Header_Signer l m =
    (Ok p, {| cells := <[p := a]> (cells m); headers := headers m |}).
Proof.
  intros Hl Hnz Hq Ha p. unfold Header_Signer, mbind at 1, M_bind at 1, load_header.
  rewrite Hl, decide_False, Hq by done.
  unfold mbind, M_bind, load_cell. by rewrite Ha.
Qed.

Lemma Header_Signer_recover (m : mem) (l : loc) (h : Header) (sig : list byte) :
  headers m !! l = Some h → slice_len (Signature (content h)) ≠ 0%nat →
  signer (cache h) = None → readable m h sig →
  Header_Signer l m =
    match dsa_Signer (signing_hash (content h)) sig with
    | Failure msg => (Err (RecoveryFailed msg), m)
    | Success a =>
        let q := fresh (dom (cells m)) in
        let cs := <[q := a]> (cells m) in
        let p := fresh (dom cs) in
        (Ok p, {| cells := <[p := a]> cs;
                  headers := <[l := set_signer h q]> (headers m) |})
    end.
Proof.
  intros Hl Hnz Hq Hs. unfold Header_Signer, mbind at 1, M_bind at 1, load_header.
  rewrite Hl, decide_False, Hq by done.
  unfold mbind at 1, M_bind at 1. rewrite (Header_HashForSigning_run m l h Hl).
  unfold mbind at 1, M_bind at 1, read_slice. unfold readable in Hs. rewrite Hs.
  destruct (dsa_Signer _ _) as [a|msg]; [|done].
  unfold mbind, M_bind, new_cell, store_header, load_cell. cbn [cells headers].
  rewrite Hl. cbn [cells headers]. by rewrite lookup_insert_eq.
Qed.

Lemma readable_pos (m : mem) (h : Header) (sig : list byte) :
  readable m h sig → slice_len (Signature (content h)) ≠ 0%nat → sig ≠ [].
Proof.
  intros Hs Hnz ->. apply slice_view_length in Hs. simpl in Hs. lia.
Qed.

Lemma slice_view_insert_fresh (cs : gmap loc (list byte)) (s : slice)
    (bs v : list byte) (p : loc) :
  cs !! p = None → slice_view cs s = Some bs →
  slice_view (<[p := v]> cs) s = Some bs.
Proof.
  intros Hp. destruct s as [|a off n]; [done|]. simpl.
  destruct (cs !! a) as [arr|] eqn:Ha; [|done].
  rewrite lookup_insert_ne; [by rewrite Ha|]. congruence.
Qed.

(** What [Signer] returns and leaves behind on a signed header. *)
Lemma Header_Signer_signed (m : mem) (l : loc) (h : Header) (sig : list byte) :
  headers m !! l = Some h → readable m h sig → signer_cached m h sig →
  slice_len (Signature (content h)) ≠ 0%nat →
  match dsa_Signer (signing_hash (content h)) sig with
  | Success a =>
      ∃ p m' h' q,
        Header_Signer l m = (Ok p, m') ∧
        cells m !! p = None ∧ cells m' !! p = Some a ∧
        headers m' !! l = Some h' ∧
        content h' = content h ∧ hash (cache h') = hash (cache h) ∧
        signer (cache h') = Some q ∧ q ≠ p ∧ cells m' !! q = Some a ∧
        readable m' h' sig ∧ signer_cached m' h' sig
  | Failure msg =>
      Header_Signer l m = (Err (RecoveryFailed msg), m) ∧
      signer (cache h) = None
  end.
Proof.
  intros Hl Hs Hc Hnz.
  pose proof (readable_pos m h sig Hs Hnz) as Hne.
  destruct (signer (cache h)) as [q|] eqn:Hq.
  - destruct (Hc q Hq) as (_ & a & Ha & Hrec). rewrite Hrec.
    pose proof (fresh_cell_None m) as Hf.
    set (p := fresh (dom (cells m))) in *.
    assert (Hqp : q ≠ p) by congruence.
    exists p, {| cells := <[p := a]> (cells m); headers := headers m |}, h, q.
    cbn [cells headers]. split_and!; try done.
    + by apply (Header_Signer_cached m l h q a).
    + apply lookup_insert_eq.
    + by rewrite lookup_insert_ne.
    + by apply slice_view_insert_fresh.
    + intros q' Hq'. rewrite Hq in Hq'. injection Hq' as <-.
      split; [done|]. exists a. cbn [cells].
      by rewrite lookup_insert_ne.
  - rewrite (Header_Signer_recover m l h sig Hl Hnz Hq Hs).
    destruct (dsa_Signer (signing_hash (content h)) sig) as [a|msg] eqn:Hrec;
      [|done].
    pose proof (fresh_cell_None m) as Hf.
    set (q := fresh (dom (cells m))) in *.
    pose proof (is_fresh (dom (<[q := a]> (cells m)))) as Hf2.
    set (p := fresh (dom (<[q := a]> (cells m)))) in *.
    rewrite dom_insert_L in Hf2.
    assert (Hqp : q ≠ p) by set_solver.
    assert (Hp : cells m !! p = None) by (apply not_elem_of_dom; set_solver).
    exists p, {| cells := <[p := a]> (<[q := a]> (cells m));
                 headers := <[l := set_signer h q]> (headers m) |},
      (set_signer h q), q. cbn [cells headers].
    split_and!; try done.
    + apply lookup_insert_eq.
    + apply lookup_insert_eq.
    + rewrite lookup_insert_ne by congruence. apply lookup_insert_eq.
    + unfold readable. cbn [cells content set_signer].
      apply slice_view_insert_fresh.
      * by rewrite lookup_insert_ne.
      * by apply slice_view_insert_fresh.
    + intros q' Hq'. injection Hq' as <-. split; [done|].
      exists a. cbn [cells content set_signer]. split; [|done].
      rewrite lookup_insert_ne by congruence. apply lookup_insert_eq.
Qed.

End Signer.

Lemma Header_Signer_NotSigned `{Codec, Hasher, Recover} (m : mem) (l : loc)
    (h : Header) :
  headers m !! l = Some h →
  (Header_Signer l m).1 = Err NotSigned ↔
  slice_len (Signature (content h)) = 0%nat.
Proof.
  intros Hl. split; [|intros Hz; by rewrite (Header_Signer_unsigned m l h Hl Hz)].
  destruct (decide (slice_len (Signature (content h)) = 0%nat)) as [|Hnz]; [done|].
  unfold Header_Signer, mbind at 1, M_bind at 1, load_header.
  rewrite Hl, decide_False by done.
  destruct (signer (cache h)) as [q|].
  - unfold mbind, M_bind, load_cell, new_cell. by destruct (cells m !! q).
  - unfold mbind at 1, M_bind at 1. rewrite (Header_HashForSigning_run m l h Hl).
    unfold mbind at 1, M_bind at 1, read_slice.
    destruct (slice_view (cells m) (Signature (content h))) as [sig|]; [|done].
    destruct (dsa_Signer _ _) as [a|msg]; [|done].
    unfold mbind, M_bind, new_cell, store_header, load_cell. cbn [cells headers].
    rewrite Hl. cbn [cells headers]. by rewrite lookup_insert_eq.
Qed.

(** C5.  [Signer] returns the ["not signed"] error exactly when the
    signature is empty, whatever the cache holds, and then leaves the memory
    as it was.  On a signed header it returns what [dsa.Signer] gives for
    the hash for signing and the signature: on success a pointer to a new
    cell that holds the address, while the header's cache leads to another
    cell with the same address; on failure the error, with the memory as it
    was and the cache unset, so that the next call runs the recovery
    again. *)
Theorem Signer_spec `{Codec, Hasher, Recover} (m : mem) (l : loc) (h : Header) :
  headers m !! l = Some h →
  ((Header_Signer l m).1 = Err NotSigned ↔
   slice_len (Signature (content h)) = 0%nat) ∧
  (slice_len (Signature (content h)) = 0%nat →
     Header_Signer l m = (Err NotSigned, m)) ∧
  (∀ sig, readable m h sig → signer_cached m h sig →
     slice_len (Signature (content h)) ≠ 0%nat →
     match dsa_Signer (signing_hash (content h)) sig with
     | Success a =>
         ∃ p m' h' q,
           Header_Signer l m = (Ok p, m') ∧
           cells m !! p = None ∧ cells m' !! p = Some a ∧
           headers m' !! l = Some h' ∧
           content h' = content h ∧ hash (cache h') = hash (cache h) ∧
           signer (cache h') = Some q ∧ q ≠ p ∧ cells m' !! q = Some a ∧
           readable m' h' sig ∧ signer_cached m' h' sig
     | Failure msg =>
         Header_Signer l m = (Err (RecoveryFailed msg), m) ∧
         signer (cache h) = None
     end).
Proof.
  intros Hl. split_and!.
  - by apply Header_Signer_NotSigned.
  - by apply Header_Signer_unsigned.
  - intros sig Hs Hc Hnz. by apply Header_Signer_signed.
Qed.

Lemma Signer_spec_witness :
  let run := Header_Signer (H := RLP.codec) (H0 := Fixture.checksum)
               (H1 := Fixture.recover) 1%positive in
  let sig := replicate 65 x07 in
  let a := take 20 (Fixture.checksum
                      (sig ++ signing_hash (H := RLP.codec) (H0 := Fixture.checksum)
                                (content Fixture.signed_genesis))) in
  run (Fixture.store Fixture.block0) = (Err NotSigned, Fixture.store Fixture.block0) ∧
  (∃ p m' h' q,
     run Fixture.signed_store = (Ok p, m') ∧
     cells Fixture.signed_store !! p = None ∧ cells m' !! p = Some a ∧
     headers m' !! 1%positive = Some h' ∧
     content h' = content Fixture.signed_genesis ∧
     hash (cache h') = hash (cache Fixture.signed_genesis) ∧
     signer (cache h') = Some q ∧ q ≠ p ∧ cells m' !! q = Some a ∧
     readable m' h' sig ∧
     signer_cached (H := RLP.codec) (H0 := Fixture.checksum)
       (H1 := Fixture.recover) m' h' sig) ∧
  run Fixture.badly_signed_store
  = (Err (RecoveryFailed "invalid signature length"), Fixture.badly_signed_store).
Proof.
  intros run sig a. split_and!.
  - apply (proj1 (proj2 (Signer_spec (H := RLP.codec) (H0 := Fixture.checksum)
                    (H1 := Fixture.recover)
                    (Fixture.store Fixture.block0) 1%positive Fixture.block0
                    ltac:(vm_compute; reflexivity)))).
    reflexivity.
  - assert (Hl : headers Fixture.signed_store !! 1%positive
                 = Some Fixture.signed_genesis) by (vm_compute; reflexivity).
    assert (Hs : readable Fixture.signed_store Fixture.signed_genesis sig)
      by (vm_compute; reflexivity).
    assert (Hc : signer_cached (H := RLP.codec) (H0 := Fixture.checksum)
                   (H1 := Fixture.recover)
                   Fixture.signed_store Fixture.signed_genesis sig)
      by (intros q Hq; discriminate Hq).
    assert (Hnz : slice_len (Signature (content Fixture.signed_genesis)) ≠ 0%nat)
      by (simpl; lia).
    pose proof (proj2 (proj2 (Signer_spec Fixture.signed_store 1%positive
                         Fixture.signed_genesis Hl)) sig Hs Hc Hnz) as Hrun.
    assert (Hrec : dsa_Signer (Recover := Fixture.recover)
                     (signing_hash (H := RLP.codec) (H0 := Fixture.checksum)
                        (content Fixture.signed_genesis)) sig = Success a)
      by (vm_compute; reflexivity).
    rewrite Hrec in Hrun. exact Hrun.
  - set (h := Header_of_content
                (Fixture.content_on zero_hash (Slice 2%positive 0 3))).
    assert (Hl : headers Fixture.badly_signed_store !! 1%positive = Some h)
      by (vm_compute; reflexivity).
    assert (Hs : readable Fixture.badly_signed_store h [x01; x02; x03])
      by (vm_compute; reflexivity).
    assert (Hc : signer_cached (H := RLP.codec) (H0 := Fixture.checksum)
                   (H1 := Fixture.recover)
                   Fixture.badly_signed_store h [x01; x02; x03])
      by (intros q Hq; discriminate Hq).
    assert (Hnz : slice_len (Signature (content h)) ≠ 0%nat) by (simpl; lia).
    pose proof (proj2 (proj2 (Signer_spec Fixture.badly_signed_store 1%positive h Hl))
                  [x01; x02; x03] Hs Hc Hnz) as Hrun.
    assert (Hrec : dsa_Signer (Recover := Fixture.recover)
                     (signing_hash (H := RLP.codec) (H0 := Fixture.checksum)
                        (content h)) [x01; x02; x03]
                   = Failure "invalid signature length")
      by (vm_compute; reflexivity).
    rewrite Hrec in Hrun. exact (proj1 Hrun).
Defined.

(** ** The methods keep the caches coherent *)

Section Invariant.
Context `{Codec, Hasher, Recover}.

Lemma slice_view_mono (cs cs' : gmap loc (list byte)) (s : slice) (bs : list byte) :
  cs ⊆ cs' → slice_view cs s = Some bs → slice_view cs' s = Some bs.
Proof.
  intros Hsub. destruct s as [|a off n]; [done|]. simpl.
  destruct (cs !! a) as [arr|] eqn:Ha; [|done].
  by rewrite (lookup_weaken _ _ _ _ Ha Hsub).
Qed.

Lemma coherent_mono (m m' : mem) (h : Header) :
  cells m ⊆ cells m' → coherent m h → coherent m' h.
Proof.
  intros Hsub (sig & Hs & Hh & Hg). exists sig. split_and!.
  - by apply (slice_view_mono (cells m)).
  - intros p Hp. eapply lookup_weaken; [by apply Hh|done].
  - intros q Hq. destruct (Hg q Hq) as (Hne & a & Ha & Hrec).
    split; [done|]. exists a. split; [|done].
    eapply lookup_weaken; [exact Ha|done].
Qed.

Lemma cells_fresh_subseteq (m : mem) (v : list byte) :
  cells m ⊆ <[fresh (dom (cells m)) := v]> (cells m).
Proof. apply insert_subseteq, fresh_cell_None. Qed.

(** A header just made from a content is coherent wherever its signature
    can be read. *)
Lemma Header_of_content_coherent (m : mem) (c : headerContent) (sig : list byte) :
  slice_view (cells m) (Signature c) = Some sig →
  coherent m (Header_of_content c).
Proof. intros Hs. exists sig. by split_and!. Qed.

Lemma Header_Hash_keeps (m m' : mem) (l : loc) (r : outcome Hash) :
  mem_coherent m → Header_Hash l m = (r, m') → mem_coherent m'.
Proof.
  intros Hinv Hrun.
  destruct (headers m !! l) as [h|] eqn:Hl; last first.
  { unfold Header_Hash, mbind, M_bind, load_header in Hrun. rewrite Hl in Hrun.
    by injection Hrun as _ <-. }
  destruct (Hinv l h Hl) as (sig & Hs & Hh & Hg).
  destruct (hash (cache h)) as [p|] eqn:Hp.
  - rewrite (Header_Hash_cached m l h p _ Hl Hp (Hh p Hp)) in Hrun.
    by injection Hrun as _ <-.
  - rewrite (Header_Hash_compute m l h sig Hl Hs Hp) in Hrun.
    injection Hrun as _ <-. intros l0 h0. cbn [headers].
    pose proof (cells_fresh_subseteq m (block_hash h sig)) as Hsub.
    destruct (decide (l0 = l)) as [->|Hne].
    + rewrite lookup_insert_eq. intros [= <-]. exists sig. split_and!.
      * by apply (slice_view_mono (cells m)).
      * intros p [= <-]. cbn [cells]. apply lookup_insert_eq.
      * intros q Hq. destruct (Hg q Hq) as (Hne & a & Ha & Hrec).
        split; [done|]. exists a. split; [|done].
        eapply lookup_weaken; [exact Ha|done].
    + rewrite lookup_insert_ne by done. intros Hl0.
      by apply (coherent_mono m), Hinv with l0.
Qed.

Lemma Header_Signer_keeps (m m' : mem) (l : loc) (r : outcome loc) :
  mem_coherent m → Header_Signer l m = (r, m') → mem_coherent m'.
Proof.
  intros Hinv Hrun.
  destruct (headers m !! l) as [h|] eqn:Hl; last first.
  { unfold Header_Signer, mbind, M_bind, load_header in Hrun. rewrite Hl in Hrun.
    by injection Hrun as _ <-. }
  destruct (decide (slice_len (Signature (content h)) = 0%nat)) as [Hz|Hnz].
  { rewrite (Header_Signer_unsigned m l h Hl Hz) in Hrun.
    by injection Hrun as _ <-. }
  destruct (Hinv l h Hl) as (sig & Hs & Hh & Hg).
  pose proof (Header_Signer_signed m l h sig Hl Hs Hg Hnz) as Hspec.
  destruct (dsa_Signer (signing_hash (content h)) sig) as [a|msg] eqn:Hrec.
  - destruct (signer (cache h)) as [q|] eqn:Hq.
    + destruct (Hg q Hq) as (_ & a' & Ha' & Hrec').
      rewrite (Header_Signer_cached m l h q a' Hl Hnz Hq Ha') in Hrun.
      injection Hrun as _ <-. intros l0 h0 Hl0.
      apply (coherent_mono m); [apply cells_fresh_subseteq|by apply Hinv with l0].
    + rewrite (Header_Signer_recover m l h sig Hl Hnz Hq Hs), Hrec in Hrun.
      cbv zeta in Hrun. injection Hrun as _ <-.
      set (q := fresh (dom (cells m))).
      set (p := fresh (dom (<[q := a]> (cells m)))).
      assert (Hsub : cells m ⊆ <[p := a]> (<[q := a]> (cells m))).
      { etrans; [apply (cells_fresh_subseteq m a)|].
        apply insert_subseteq, not_elem_of_dom, is_fresh. }
      assert (Hqa : <[p := a]> (<[q := a]> (cells m)) !! q = Some a).
      { apply (lookup_weaken (<[q := a]> (cells m))); [apply lookup_insert_eq|].
        apply insert_subseteq, not_elem_of_dom, is_fresh. }
      intros l0 h0. cbn [headers].
      destruct (decide (l0 = l)) as [->|Hne].
      * rewrite lookup_insert_eq. intros [= <-]. exists sig. split_and!.
        -- by apply (slice_view_mono (cells m)).
        -- intros p' Hp'. eapply lookup_weaken; [by apply Hh|done].
        -- intros q' [= <-]. split; [by apply (readable_pos m h)|].
           by exists a.
      * rewrite lookup_insert_ne by done. intros Hl0.
        by apply (coherent_mono m), Hinv with l0.
  - destruct Hspec as [Hfail _]. rewrite Hfail in Hrun.
    by injection Hrun as _ <-.
Qed.

Lemma Header_WithSignature_keeps (m m' : mem) (l : loc) (sig : slice)
    (r : outcome loc) :
  mem_coherent m → Header_WithSignature l sig m = (r, m') → mem_coherent m'.
Proof.
  intros Hinv Hrun.
  destruct (headers m !! l) as [h|] eqn:Hl; last first.
  { unfold Header_WithSignature, mbind, M_bind, load_header in Hrun.
    rewrite Hl in Hrun. by injection Hrun as _ <-. }
  destruct (slice_view (cells m) sig) as [bs|] eqn:Hs; last first.
  { unfold Header_WithSignature, mbind, M_bind, load_header, append_nil,
      mbind, M_bind, read_slice in Hrun.
    rewrite Hl, Hs in Hrun. by injection Hrun as _ <-. }
  destruct (Header_WithSignature_run m l h sig bs Hl Hs)
    as (s & cs & Hrun' & Hlen & Hkeep & Hcopy).
  rewrite Hrun' in Hrun. injection Hrun as _ <-.
  assert (Hsub : cells m ⊆ cs).
  { apply map_subseteq_spec. exact Hkeep. }
  intros l0 h0. cbn [headers].
  destruct (decide (l0 = fresh (dom (headers m)))) as [->|Hne].
  - rewrite lookup_insert_eq. intros [= <-].
    apply (Header_of_content_coherent _ _ bs). cbn [cells Signature set_Signature].
    by apply Hcopy.
  - rewrite lookup_insert_ne by done. intros Hl0.
    by apply (coherent_mono m), Hinv with l0.
Qed.

Lemma Header_DecodeRLP_keeps (m m' : mem) (l : loc) (s : list byte)
    (r : outcome (list byte)) :
  mem_coherent m → Header_DecodeRLP l s m = (r, m') → mem_coherent m'.
Proof.
  intros Hinv Hrun.
  destruct (rlp_Decode headerKinds s) as [[fs rest]|msg] eqn:Hd; last first.
  { rewrite (Header_DecodeRLP_fail m l s msg Hd) in Hrun.
    by injection Hrun as _ <-. }
  pose proof (cells_fresh_subseteq m (fields_signature fs)) as Hsub.
  destruct (headers m !! l) as [h|] eqn:Hl.
  - rewrite (Header_DecodeRLP_ok m l s h fs rest Hl Hd) in Hrun.
    injection Hrun as _ <-. intros l0 h0. cbn [headers].
    destruct (decide (l0 = l)) as [->|Hne].
    + rewrite lookup_insert_eq. intros [= <-].
      apply (Header_of_content_coherent _ _ (fields_signature fs)).
      apply decoded_signature_view.
    + rewrite lookup_insert_ne by done. intros Hl0.
      by apply (coherent_mono m), Hinv with l0.
  - unfold Header_DecodeRLP in Hrun. rewrite Hd in Hrun.
    unfold mbind, M_bind, new_cell, store_header in Hrun.
    cbn [cells headers] in Hrun. rewrite Hl in Hrun.
    injection Hrun as _ <-. intros l0 h0 Hl0.
    by apply (coherent_mono m), Hinv with l0.
Qed.

(** The empty memory is coherent, and so is every memory reached from it
    by calls of the methods. *)
Lemma empty_mem_coherent : mem_coherent empty_mem.
Proof. intros l h Hl. cbn [empty_mem headers] in Hl. by rewrite lookup_empty in Hl. Qed.

End Invariant.

(** ** Further properties of the methods *)

(** X8.  [Number()] is 0 on a genesis header and on a header whose parent
    has number [2^32 - 1], and on no other header. *)
Theorem Header_Number_zero_iff (h : Header) :
  Header_Number h = 0 ↔
  ParentHash (content h) = zero_hash ∨
  Number (ParentHash (content h)) = 2 ^ 32 - 1.
Proof.
  pose proof (Number_range (ParentHash (content h))) as Hr.
  unfold Header_Number. case_decide as Hz.
  - split; [by left|done].
  - unfold wrap32. split.
    + intros Hmod. right.
      destruct (decide (Number (ParentHash (content h)) = 2 ^ 32 - 1)); [done|].
      rewrite Z.mod_small in Hmod by lia. lia.
    + intros [E| ->]; [congruence|]. reflexivity.
Qed.

(** X2.  [Number] applied to the hash that [Hash] returns is the number of
    the header. *)
Theorem Number_of_Hash `{Codec, Hasher} (m m' : mem) (l : loc) (h : Header)
    (sig : list byte) (sum : Hash) :
  headers m !! l = Some h → readable m h sig → hash_cached m h sig →
  Header_Hash l m = (Ok sum, m') →
  Number sum = Header_Number h.
Proof.
  intros Hl Hs Hc Hrun.
  destruct (Header_Hash_spec m l h sig Hl Hs Hc) as [m'' Hrun'].
  rewrite Hrun' in Hrun. injection Hrun as <- _.
  unfold block_hash. rewrite Number_be32.
  apply wrap32_small, Header_Number_range.
Qed.

Lemma Number_of_Hash_witness :
  Number (Fixture.hash_of Fixture.eighth) = Header_Number Fixture.eighth.
Proof.
  apply (Number_of_Hash (H := RLP.codec) (H0 := Fixture.checksum)
           (Fixture.store Fixture.eighth)
           (Header_Hash (H := RLP.codec) (H0 := Fixture.checksum) 1%positive
              (Fixture.store Fixture.eighth)).2
           1%positive Fixture.eighth []).
  - vm_compute. reflexivity.
  - reflexivity.
  - intros p Hp. discriminate Hp.
  - vm_compute. reflexivity.
Defined.

(** X1.  [Hash] is memoized: after a first call, a second call returns the
    same bytes and leaves the memory as the first call left it; the first
    call changes neither the content nor the signer cache of the header. *)
Theorem Hash_memoized `{Codec, Hasher} (m : mem) (l : loc) (h : Header)
    (sig : list byte) :
  headers m !! l = Some h → readable m h sig → hash_cached m h sig →
  ∃ sum m1 h1,
    Header_Hash l m = (Ok sum, m1) ∧
    Header_Hash l m1 = (Ok sum, m1) ∧
    headers m1 !! l = Some h1 ∧
    content h1 = content h ∧
    signer (cache h1) = signer (cache h) ∧
    is_Some (hash (cache h1)).
Proof.
  intros Hl Hs Hc. destruct (hash (cache h)) as [p|] eqn:Hp.
  - pose proof (Header_Hash_cached m l h p _ Hl Hp (Hc p Hp)) as Hrun.
    exists (block_hash h sig), m, h. rewrite Hp. by split_and!.
  - pose proof (Header_Hash_compute m l h sig Hl Hs Hp) as Hrun.
    cbv zeta in Hrun. eexists _, _, (set_hash h (fresh (dom (cells m)))).
    split; [exact Hrun|]. split_and!; try done.
    + eapply (Header_Hash_cached _ l (set_hash h (fresh (dom (cells m))))).
      * apply lookup_insert_eq.
      * done.
      * apply lookup_insert_eq.
    + apply lookup_insert_eq.
Qed.

Lemma Hash_memoized_witness :
  ∃ sum m1 h1,
    Header_Hash (H := RLP.codec) (H0 := Fixture.checksum) 1%positive
      (Fixture.store Fixture.eighth) = (Ok sum, m1) ∧
    Header_Hash (H := RLP.codec) (H0 := Fixture.checksum) 1%positive m1
      = (Ok sum, m1) ∧
    headers m1 !! 1%positive = Some h1 ∧
    content h1 = content Fixture.eighth ∧
    signer (cache h1) = signer (cache Fixture.eighth) ∧
    is_Some (hash (cache h1)).
Proof.
  apply (Hash_memoized (Fixture.store Fixture.eighth) 1%positive Fixture.eighth []).
  - vm_compute. reflexivity.
  - reflexivity.
  - intros p Hp. discriminate Hp.
Defined.

Lemma block_hash_content_value `{Codec, Hasher} (m1 m2 : mem) (h1 h2 : Header)
    (sig1 sig2 : list byte) :
  readable m1 h1 sig1 → readable m2 h2 sig2 →
  content_value m1 h1 = content_value m2 h2 →
  block_hash h1 sig1 = block_hash h2 sig2.
Proof.
  unfold readable, content_value. intros -> ->.
  cbn [fmap option_fmap option_map]. intros E.
  assert (Ef : content_fields (content h1) sig1 = content_fields (content h2) sig2)
    by congruence.
  assert (Eph : ParentHash (content h1) = ParentHash (content h2)).
  { unfold content_fields in Ef. congruence. }
  unfold block_hash, full_hash, Header_Number. by rewrite Ef, Eph.
Qed.

(** X9.  [Hash] depends on the content only: two header objects of equal
    content, in whatever memories and whether their hashes are cached or
    not, have the same hash. *)
Theorem Hash_of_equal_content `{Codec, Hasher} (m1 m2 : mem) (l1 l2 : loc)
    (h1 h2 : Header) (sig1 sig2 : list byte) :
  headers m1 !! l1 = Some h1 → readable m1 h1 sig1 → hash_cached m1 h1 sig1 →
  headers m2 !! l2 = Some h2 → readable m2 h2 sig2 → hash_cached m2 h2 sig2 →
  content_value m1 h1 = content_value m2 h2 →
  ∃ sum, (Header_Hash l1 m1).1 = Ok sum ∧ (Header_Hash l2 m2).1 = Ok sum.
Proof.
  intros Hl1 Hs1 Hc1 Hl2 Hs2 Hc2 Hv.
  destruct (Header_Hash_spec m1 l1 h1 sig1 Hl1 Hs1 Hc1) as [m1' Hrun1].
  destruct (Header_Hash_spec m2 l2 h2 sig2 Hl2 Hs2 Hc2) as [m2' Hrun2].
  exists (block_hash h1 sig1). rewrite Hrun1, Hrun2. split; [done|].
  cbn [fst]. f_equal. symmetry. by apply (block_hash_content_value m1 m2).
Qed.

Lemma Hash_of_equal_content_witness :
  ∃ sum,
    (Header_Hash (H := RLP.codec) (H0 := Fixture.checksum) 1%positive
       Fixture.hashed).1 = Ok sum ∧
    (Header_Hash (H := RLP.codec) (H0 := Fixture.checksum) 1%positive
       (Fixture.store Fixture.eighth)).1 = Ok sum.
Proof.
  apply (Hash_of_equal_content (H := RLP.codec) (H0 := Fixture.checksum)
           Fixture.hashed (Fixture.store Fixture.eighth) 1%positive 1%positive
           (set_hash Fixture.eighth 1%positive) Fixture.eighth [] []).
  - vm_compute. reflexivity.
  - reflexivity.
  - intros p Hp. injection Hp as <-. vm_compute. reflexivity.
  - vm_compute. reflexivity.
  - reflexivity.
  - intros p Hp. discriminate Hp.
  - reflexivity.
Defined.

Lemma signing_hash_set_Signature `{Codec, Hasher} (c : headerContent) (s : slice) :
  signing_hash (set_Signature c s) = signing_hash c.
Proof. reflexivity. Qed.

(** What [WithSignature] leaves in memory, for the calls that follow it. *)
Lemma Header_WithSignature_then (m : mem) (l : loc) (h : Header) (sig : slice)
    (bs : list byte) :
  headers m !! l = Some h → slice_view (cells m) sig = Some bs →
  ∃ l' m' s,
    Header_WithSignature l sig m = (Ok l', m') ∧
    headers m' !! l' = Some (Header_of_content (set_Signature (content h) s)) ∧
    slice_view (cells m') s = Some bs ∧
    slice_len s = length bs ∧
    headers m' !! l = Some h ∧
    cells m ⊆ cells m'.
Proof.
  intros Hl Hs.
  destruct (Header_WithSignature_run m l h sig bs Hl Hs)
    as (s & cs & Hrun & Hlen & Hkeep & Hcopy).
  eexists _, _, s. split; [exact Hrun|]. cbn [headers cells]. split_and!.
  - apply lookup_insert_eq.
  - by apply Hcopy.
  - done.
  - rewrite lookup_insert_ne; [done|]. intros E.
    pose proof (fresh_header_None m) as Hf. rewrite E in Hf. congruence.
  - by apply map_subseteq_spec.
Qed.

(** X3.  Attaching a signature changes neither the number nor the hash for
    signing: the new header has the receiver's [Number()] and
    [HashForSigning()], and its [Hash()] carries that number in front of the
    digest of the receiver's fields with the new signature. *)
Theorem WithSignature_keeps_signing_hash `{Codec, Hasher} (m : mem) (l : loc)
    (h : Header) (sig : slice) (bs : list byte) :
  headers m !! l = Some h → slice_view (cells m) sig = Some bs →
  ∃ l' m' h',
    Header_WithSignature l sig m = (Ok l', m') ∧
    headers m' !! l' = Some h' ∧
    Header_Number h' = Header_Number h ∧
    (Header_HashForSigning l' m').1 = (Header_HashForSigning l m).1 ∧
    ∃ sum m'',
      Header_Hash l' m' = (Ok sum, m'') ∧
      take 4 sum = be32 (Header_Number h) ∧
      drop 4 sum = drop 4 (full_hash (content h) bs).
Proof.
  intros Hl Hs.
  destruct (Header_WithSignature_then m l h sig bs Hl Hs)
    as (l' & m' & s & Hrun & Hl' & Hs' & _ & _ & _).
  eexists l', m', _. split; [exact Hrun|]. split; [exact Hl'|].
  split; [reflexivity|]. split.
  - rewrite (Header_HashForSigning_run m' l' _ Hl').
    by rewrite (Header_HashForSigning_run m l h Hl).
  - eexists _, _. split; [|split].
    + by apply (Header_Hash_compute m' l' _ bs Hl').
    + reflexivity.
    + reflexivity.
Qed.

Lemma WithSignature_keeps_signing_hash_witness :
  let m := Fixture.with_buffer in
  let h := set_hash Fixture.block0 1%positive in
  ∃ l' m' h',
    Header_WithSignature 1%positive (Slice 5%positive 1 3) m = (Ok l', m') ∧
    headers m' !! l' = Some h' ∧
    Header_Number h' = Header_Number h ∧
    (Header_HashForSigning (H := RLP.codec) (H0 := Fixture.checksum) l' m').1
    = (Header_HashForSigning (H := RLP.codec) (H0 := Fixture.checksum)
         1%positive m).1 ∧
    ∃ sum m'',
      Header_Hash (H := RLP.codec) (H0 := Fixture.checksum) l' m' = (Ok sum, m'') ∧
      take 4 sum = be32 (Header_Number h) ∧
      drop 4 sum = drop 4 (full_hash (H := RLP.codec) (H0 := Fixture.checksum)
                             (content h) [x0b; x0c; x0d]).
Proof.
  intros m h.
  apply (WithSignature_keeps_signing_hash m 1%positive h
           (Slice 5%positive 1 3) [x0b; x0c; x0d]).
  - vm_compute. reflexivity.
  - vm_compute. reflexivity.
Defined.



(** X5.  The address [Signer] returns is the caller's own copy: whatever the
    caller stores through the returned pointer, the next call of [Signer]
    returns another pointer, to the address that was recovered. *)
Theorem Signer_returns_copy `{Codec, Hasher, Recover} (m m1 : mem) (l p : loc)
    (h : Header) (sig : list byte) :
  headers m !! l = Some h → readable m h sig → signer_cached m h sig →
  Header_Signer l m = (Ok p, m1) →
  ∃ a, cells m1 !! p = Some a ∧
    ∀ v, ∃ m2 p2 m3,
      store_cell p v m1 = (Ok tt, m2) ∧
      Header_Signer l m2 = (Ok p2, m3) ∧
      p2 ≠ p ∧ cells m3 !! p2 = Some a ∧ cells m3 !! p = Some v.
Proof.
  intros Hl Hs Hc Hrun.
  destruct (decide (slice_len (Signature (content h)) = 0%nat)) as [Hz|Hnz].
  { by rewrite (Header_Signer_unsigned m l h Hl Hz) in Hrun. }
  pose proof (Header_Signer_signed m l h sig Hl Hs Hc Hnz) as Hspec.
  destruct (dsa_Signer (signing_hash (content h)) sig) as [a|msg]; last first.
  { destruct Hspec as [Hfail _]. by rewrite Hfail in Hrun. }
  destruct Hspec as (p' & m1' & h' & q & Hrun' & _ & Hp & Hl1 & Hcont & _ & Hq
                     & Hqp & Hqa & _ & _).
  rewrite Hrun' in Hrun. injection Hrun as -> ->.
  exists a. split; [exact Hp|]. intros v.
  set (m2 := {| cells := <[p := v]> (cells m1); headers := headers m1 |}).
  assert (Hstore : store_cell p v m1 = (Ok tt, m2)).
  { unfold store_cell. by rewrite Hp. }
  assert (Hnz' : slice_len (Signature (content h')) ≠ 0%nat) by (by rewrite Hcont).
  assert (Hqa' : cells m2 !! q = Some a).
  { cbn [m2 cells]. by rewrite lookup_insert_ne. }
  pose proof (Header_Signer_cached m2 l h' q a Hl1 Hnz' Hq Hqa') as Hrun2.
  cbv zeta in Hrun2.
  pose proof (is_fresh (dom (cells m2))) as Hf.
  assert (Hpd : p ∈ dom (cells m2)).
  { cbn [m2 cells]. rewrite dom_insert_L. set_solver. }
  assert (Hne : fresh (dom (cells m2)) ≠ p) by (intros E; by rewrite E in Hf).
  eexists m2, _, _. split; [exact Hstore|]. split; [exact Hrun2|].
  cbn [cells]. split_and!.
  - exact Hne.
  - apply lookup_insert_eq.
  - rewrite lookup_insert_ne by done. cbn [m2 cells]. apply lookup_insert_eq.
Qed.

Lemma Signer_returns_copy_witness :
  let run := Header_Signer (H := RLP.codec) (H0 := Fixture.checksum)
               (H1 := Fixture.recover) 1%positive in
  ∃ a, cells (run Fixture.signed_store).2 !! 4%positive = Some a ∧
    ∀ v, ∃ m2 p2 m3,
      store_cell 4%positive v (run Fixture.signed_store).2 = (Ok tt, m2) ∧
      run m2 = (Ok p2, m3) ∧
      p2 ≠ 4%positive ∧ cells m3 !! p2 = Some a ∧ cells m3 !! 4%positive = Some v.
Proof.
  intros run.
  apply (Signer_returns_copy (H := RLP.codec) (H0 := Fixture.checksum)
           (H1 := Fixture.recover) Fixture.signed_store
           (run Fixture.signed_store).2 1%positive 4%positive
           Fixture.signed_genesis (replicate 65 x07)).
  - vm_compute. reflexivity.
  - vm_compute. reflexivity.
  - intros q Hq. discriminate Hq.
  - vm_compute. reflexivity.
Defined.

(** X6.  [DecodeRLP] leaves no stale cache behind: whatever the receiver
    held and had cached, after a successful call its content is the decoded
    one, [Hash] returns the block hash of the decoded content, and [Signer]
    reports a decoded empty signature as not signed. *)
Theorem DecodeRLP_resets_caches `{Codec, Hasher, Recover} (m : mem) (l : loc)
    (h0 : Header) (s rest : list byte) (fs : fields headerKinds) :
  headers m !! l = Some h0 →
  rlp_Decode headerKinds s = Success (fs, rest) →
  ∃ m' h',
    Header_DecodeRLP l s m = (Ok rest, m') ∧
    headers m' !! l = Some h' ∧
    content_value m' h' = Some fs ∧
    (Header_Hash l m').1 = Ok (block_hash h' (fields_signature fs)) ∧
    (fields_signature fs = [] → Header_Signer l m' = (Err NotSigned, m')) ∧
    (fields_signature fs ≠ [] → (Header_Signer l m').1 ≠ Err NotSigned).
Proof.
  intros Hl Hd.
  pose proof (Header_DecodeRLP_ok m l s h0 fs rest Hl Hd) as Hrun.
  cbv zeta in Hrun.
  set (a := fresh (dom (cells m))) in *.
  set (c := fields_content fs (Slice a 0 (length (fields_signature fs)))) in *.
  set (m' := {| cells := <[a := fields_signature fs]> (cells m);
                headers := <[l := Header_of_content c]> (headers m) |}) in *.
  assert (Hl' : headers m' !! l = Some (Header_of_content c))
    by apply lookup_insert_eq.
  assert (Hs' : readable m' (Header_of_content c) (fields_signature fs))
    by apply decoded_signature_view.
  assert (Hlen : slice_len (Signature (content (Header_of_content c)))
                 = length (fields_signature fs)).
  { symmetry. exact (slice_view_length _ _ _ Hs'). }
  exists m', (Header_of_content c). split_and!.
  - exact Hrun.
  - exact Hl'.
  - apply decoded_content_value.
  - by rewrite (Header_Hash_compute m' l (Header_of_content c) _ Hl' Hs').
  - intros Hemp. apply (Header_Signer_unsigned m' l _ Hl').
    by rewrite Hlen, Hemp.
  - intros Hne Herr.
    apply (Header_Signer_NotSigned m' l _ Hl') in Herr.
    rewrite Hlen in Herr. by destruct (fields_signature fs).
Qed.

Lemma DecodeRLP_resets_caches_witness :
  ∃ m' h',
    Header_DecodeRLP (H := RLP.codec) 1%positive
      (Fixture.encoded (content Fixture.eighth) []) Fixture.with_buffer
    = (Ok [], m') ∧
    headers m' !! 1%positive = Some h' ∧
    content_value m' h' = Some (content_fields (content Fixture.eighth) []) ∧
    (Header_Hash (H := RLP.codec) (H0 := Fixture.checksum) 1%positive m').1
    = Ok (block_hash (H := RLP.codec) (H0 := Fixture.checksum) h' []) ∧
    Header_Signer (H := RLP.codec) (H0 := Fixture.checksum)
      (H1 := Fixture.recover) 1%positive m' = (Err NotSigned, m').
Proof.
  destruct (DecodeRLP_resets_caches (H := RLP.codec) (H0 := Fixture.checksum)
              (H1 := Fixture.recover) Fixture.with_buffer 1%positive
              (set_hash Fixture.block0 1%positive)
              (Fixture.encoded (content Fixture.eighth) []) []
              (content_fields (content Fixture.eighth) [])
              ltac:(vm_compute; reflexivity) ltac:(vm_compute; reflexivity))
    as (m' & h' & Hrun & Hl & Hv & Hhash & Hunsigned & _).
  exists m', h'. split_and!; [exact Hrun|exact Hl|exact Hv|exact Hhash|].
  apply Hunsigned. reflexivity.
Defined.

(** ** Headers are immutable *)

Lemma keeps_contents_refl (m : mem) : keeps_contents m m.
Proof. split; [done|]. intros k h Hk. by exists h. Qed.

Lemma keeps_contents_cells (m : mem) (cs : gmap loc (list byte)) :
  cells m ⊆ cs → keeps_contents m {| cells := cs; headers := headers m |}.
Proof. intros Hsub. split; [done|]. intros k h Hk. by exists h. Qed.

Lemma keeps_contents_cache (m : mem) (cs : gmap loc (list byte)) (l : loc)
    (h h' : Header) :
  cells m ⊆ cs → headers m !! l = Some h → content h' = content h →
  keeps_contents m {| cells := cs; headers := <[l := h']> (headers m) |}.
Proof.
  intros Hsub Hl Hc. split; [done|]. intros k hk Hk. cbn [headers].
  destruct (decide (k = l)) as [->|Hne].
  - exists h'. rewrite lookup_insert_eq. split; [done|]. congruence.
  - exists hk. by rewrite lookup_insert_ne.
Qed.

Lemma Header_EncodeRLP_mem `{Codec} (l : loc) (m : mem) :
  (Header_EncodeRLP l m).2 = m.
Proof.
  unfold Header_EncodeRLP, mbind, M_bind, load_header, read_slice.
  destruct (headers m !! l) as [h|]; [|done].
  destruct (slice_view (cells m) (Signature (content h))); [|done].
  by destruct (rlp_Encode _ _).
Qed.

Lemma Header_HashForSigning_mem `{Codec, Hasher} (l : loc) (m : mem) :
  (Header_HashForSigning l m).2 = m.
Proof.
  unfold Header_HashForSigning, mbind, M_bind, load_header.
  by destruct (headers m !! l).
Qed.

Lemma Header_Hash_contents `{Codec, Hasher} (l : loc) (m : mem) :
  keeps_contents m (Header_Hash l m).2.
Proof.
  unfold Header_Hash, mbind at 1, M_bind at 1, load_header.
  destruct (headers m !! l) as [h|] eqn:Hl; [|apply keeps_contents_refl].
  destruct (hash (cache h)) as [p|].
  { unfold load_cell. destruct (cells m !! p); apply keeps_contents_refl. }
  unfold mbind at 1, M_bind at 1, written.
  pose proof (Header_EncodeRLP_mem l m) as Hmem.
  destruct (Header_EncodeRLP l m) as [r m0]. cbn [snd] in Hmem. subst m0.
  destruct r as [hw|e|]; [| |apply keeps_contents_refl].
  all: unfold mbind, M_bind, new_cell, store_header; cbn [cells headers].
  all: rewrite Hl; cbn [snd].
  all: by apply (keeps_contents_cache m _ l h); [apply cells_fresh_subseteq| |].
Qed.

Lemma Header_Signer_contents `{Codec, Hasher, Recover} (l : loc) (m : mem) :
  keeps_contents m (Header_Signer l m).2.
Proof.
  unfold Header_Signer, mbind at 1, M_bind at 1, load_header.
  destruct (headers m !! l) as [h|] eqn:Hl; [|apply keeps_contents_refl].
  case_decide; [apply keeps_contents_refl|].
  destruct (signer (cache h)) as [q|].
  { unfold mbind, M_bind, load_cell, new_cell.
    destruct (cells m !! q); [|apply keeps_contents_refl].
    apply keeps_contents_cells, cells_fresh_subseteq. }
  unfold mbind at 1, M_bind at 1. rewrite (Header_HashForSigning_run m l h Hl).
  unfold mbind at 1, M_bind at 1, read_slice.
  destruct (slice_view (cells m) (Signature (content h))) as [sig|];
    [|apply keeps_contents_refl].
  destruct (dsa_Signer _ _) as [a|msg]; [|apply keeps_contents_refl].
  unfold mbind, M_bind, new_cell, store_header, load_cell. cbn [cells headers].
  rewrite Hl. cbn [cells headers]. rewrite lookup_insert_eq. cbn [snd].
  apply (keeps_contents_cache m _ l h); [|done|done].
  etrans; [apply (cells_fresh_subseteq m a)|].
  apply insert_subseteq, not_elem_of_dom, is_fresh.
Qed.

Lemma Header_WithSignature_contents (l : loc) (sig : slice) (m : mem) :
  keeps_contents m (Header_WithSignature l sig m).2.
Proof.
  destruct (headers m !! l) as [h|] eqn:Hl; last first.
  { unfold Header_WithSignature, mbind, M_bind, load_header. rewrite Hl.
    apply keeps_contents_refl. }
  destruct (slice_view (cells m) sig) as [bs|] eqn:Hs; last first.
  { unfold Header_WithSignature, mbind, M_bind, load_header, append_nil,
      mbind, M_bind, read_slice.
    rewrite Hl, Hs. apply keeps_contents_refl. }
  destruct (Header_WithSignature_run m l h sig bs Hl Hs)
    as (s & cs & -> & _ & Hkeep & _).
  cbn [snd]. split; [by apply map_subseteq_spec|].
  intros k hk Hk. exists hk. cbn [headers]. split; [|done].
  rewrite lookup_insert_ne; [done|]. intros E.
  pose proof (fresh_header_None m) as Hf. rewrite E in Hf. congruence.
Qed.

Lemma Header_DecodeRLP_frame `{Codec} (l : loc) (s : list byte) (m : mem) :
  cells m ⊆ cells (Header_DecodeRLP l s m).2 ∧
  ∀ k, k ≠ l → headers (Header_DecodeRLP l s m).2 !! k = headers m !! k.
Proof.
  unfold Header_DecodeRLP.
  destruct (rlp_Decode headerKinds s) as [[fs rest]|msg]; [|done].
  unfold mbind, M_bind, new_cell, store_header, mret, M_ret. cbn [cells headers].
  destruct (headers m !! l); cbn [snd cells headers].
  - split; [apply cells_fresh_subseteq|]. intros k Hk. by rewrite lookup_insert_ne.
  - split; [apply cells_fresh_subseteq|done].
Qed.

(** X7.  A header is immutable.  Whatever they return, [Hash], [Signer] and
    [WithSignature] leave every cell and the content of every header
    object as they were; [EncodeRLP] and [HashForSigning] leave the whole
    memory as it was; [DecodeRLP] leaves every cell and every header object
    but its receiver as they were. *)
Theorem methods_keep_contents `{Codec, Hasher, Recover} (m : mem) (l : loc)
    (sig : slice) (s : list byte) :
  keeps_contents m (Header_Hash l m).2 ∧
  keeps_contents m (Header_Signer l m).2 ∧
  keeps_contents m (Header_WithSignature l sig m).2 ∧
  (Header_EncodeRLP l m).2 = m ∧
  (Header_HashForSigning l m).2 = m ∧
  cells m ⊆ cells (Header_DecodeRLP l s m).2 ∧
  ∀ k, k ≠ l → headers (Header_DecodeRLP l s m).2 !! k = headers m !! k.
Proof.
  split_and!.
  - apply Header_Hash_contents.
  - apply Header_Signer_contents.
  - apply Header_WithSignature_contents.
  - apply Header_EncodeRLP_mem.
  - apply Header_HashForSigning_mem.
  - apply Header_DecodeRLP_frame.
  - apply Header_DecodeRLP_frame.
Qed.

Lemma accessor_run {A} (f : headerContent → A) (m : mem) (k : loc) (h : Header) :
  headers m !! k = Some h →
  (h' ← load_header k; mret (f (content h'))) m = (Ok (f (content h)), m).
Proof. intros Hk. unfold mbind, M_bind, load_header. by rewrite Hk. Qed.

(** X10.  The accessors read the content and nothing else: in any memory
    reached by calls that keep the contents (as [Hash], [Signer] and
    [WithSignature] do), each accessor returns on a header object what the
    object held before, and leaves the memory as it is. *)
Theorem accessors_stable (m m' : mem) (k : loc) (h : Header) :
  keeps_contents m m' → headers m !! k = Some h →
  Header_ParentHash k m' = (Ok (ParentHash (content h)), m') ∧
  Header_Number_at k m' = (Ok (Header_Number h), m') ∧
  Header_Timestamp k m' = (Ok (Timestamp (content h)), m') ∧
  Header_TotalScore k m' = (Ok (TotalScore (content h)), m') ∧
  Header_GasLimit k m' = (Ok (GasLimit (content h)), m') ∧
  Header_GasUsed k m' = (Ok (GasUsed (content h)), m') ∧
  Header_Beneficiary k m' = (Ok (Beneficiary (content h)), m') ∧
  Header_TxsRoot k m' = (Ok (TxsRoot (content h)), m') ∧
  Header_StateRoot k m' = (Ok (StateRoot (content h)), m') ∧
  Header_ReceiptsRoot k m' = (Ok (ReceiptsRoot (content h)), m').
Proof.
  intros [_ Hkeep] Hk. destruct (Hkeep k h Hk) as (h' & Hk' & Hc).
  rewrite <- Hc.
  assert (Hn : Header_Number h = Header_Number h').
  { unfold Header_Number. by rewrite Hc. }
  rewrite Hn. split_and!.
  2: { unfold Header_Number_at, mbind, M_bind, load_header. by rewrite Hk'. }
  all: by apply (accessor_run _ m' k h').
Qed.

Lemma accessors_stable_witness :
  let m' := Fixture.hashed in
  let h := Fixture.eighth in
  Header_ParentHash 1%positive m' = (Ok (ParentHash (content h)), m') ∧
  Header_Number_at 1%positive m' = (Ok (Header_Number h), m') ∧
  Header_Timestamp 1%positive m' = (Ok (Timestamp (content h)), m') ∧
  Header_TotalScore 1%positive m' = (Ok (TotalScore (content h)), m') ∧
  Header_GasLimit 1%positive m' = (Ok (GasLimit (content h)), m') ∧
  Header_GasUsed 1%positive m' = (Ok (GasUsed (content h)), m') ∧
  Header_Beneficiary 1%positive m' = (Ok (Beneficiary (content h)), m') ∧
  Header_TxsRoot 1%positive m' = (Ok (TxsRoot (content h)), m') ∧
  Header_StateRoot 1%positive m' = (Ok (StateRoot (content h)), m') ∧
  Header_ReceiptsRoot 1%positive m' = (Ok (ReceiptsRoot (content h)), m').
Proof.
  intros m' h.
  apply (accessors_stable (Fixture.store Fixture.eighth) m' 1%positive h).
  - apply (Header_Hash_contents (H := RLP.codec) (H0 := Fixture.checksum)
             1%positive (Fixture.store Fixture.eighth)).
  - vm_compute. reflexivity.
Defined.

(** ** Identity across serialization, and re-signing *)

(** X11.  A header keeps its identity across the wire: when [EncodeRLP] has
    written [bs], the header [DecodeRLP] builds from [bs] has the same
    [Hash()] and the same [HashForSigning()], and its [Signer()] is decided
    by the same recovery: not signed if the signature was empty, otherwise
    what [dsa.Signer] returns for the sender's hash for signing and
    signature. *)
Theorem roundtrip_keeps_identity `{CodecLaws, Hasher, Recover} (m m2 : mem)
    (l l2 : loc) (h h2 : Header) (sig bs : list byte) :
  headers m !! l = Some h → readable m h sig → hash_cached m h sig →
  (Header_EncodeRLP l m).1 = Ok bs →
  headers m2 !! l2 = Some h2 →
  ∃ m2' sum,
    Header_DecodeRLP l2 bs m2 = (Ok [], m2') ∧
    (Header_Hash l m).1 = Ok sum ∧ (Header_Hash l2 m2').1 = Ok sum ∧
    (Header_HashForSigning l2 m2').1 = (Header_HashForSigning l m).1 ∧
    if decide (sig = []) then Header_Signer l2 m2' = (Err NotSigned, m2')
    else match dsa_Signer (signing_hash (content h)) sig with
         | Success a =>
             ∃ p m3, Header_Signer l2 m2' = (Ok p, m3) ∧ cells m3 !! p = Some a
         | Failure msg =>
             Header_Signer l2 m2' = (Err (RecoveryFailed msg), m2')
         end.
Proof.
  intros Hl Hs Hc Henc Hl2.
  rewrite (Header_EncodeRLP_run m l h sig Hl Hs) in Henc. cbn [fst] in Henc.
  set (fs := content_fields (content h) sig) in *.
  destruct (rlp_Encode headerKinds fs) as [bs'|] eqn:He; [|done].
  injection Henc as ->.
  pose proof (rlp_roundtrip _ _ _ [] He) as Hd. rewrite app_nil_r in Hd.
  pose proof (Header_DecodeRLP_ok m2 l2 bs h2 fs [] Hl2 Hd) as Hrun.
  cbv zeta in Hrun.
  change (fields_signature fs) with sig in Hrun.
  set (a := fresh (dom (cells m2))) in *.
  set (c := fields_content fs (Slice a 0 (length sig))) in *.
  set (m2' := {| cells := <[a := sig]> (cells m2);
                 headers := <[l2 := Header_of_content c]> (headers m2) |}) in *.
  assert (Hl2' : headers m2' !! l2 = Some (Header_of_content c))
    by apply lookup_insert_eq.
  assert (Hs2' : readable m2' (Header_of_content c) sig)
    by apply (decoded_signature_view (cells m2) a fs).
  assert (Hsign : signing_hash (content (Header_of_content c))
                  = signing_hash (content h)) by reflexivity.
  destruct (Header_Hash_spec m l h sig Hl Hs Hc) as [m' Hhash].
  exists m2', (block_hash h sig). split_and!.
  - exact Hrun.
  - by rewrite Hhash.
  - rewrite (Header_Hash_compute m2' l2 (Header_of_content c) sig Hl2' Hs2')
      by done.
    reflexivity.
  - rewrite (Header_HashForSigning_run m2' l2 _ Hl2').
    by rewrite (Header_HashForSigning_run m l h Hl), Hsign.
  - assert (Hlen : slice_len (Signature (content (Header_of_content c)))
                   = length sig).
    { symmetry. exact (slice_view_length _ _ _ Hs2'). }
    case_decide as Hsig.
    + apply (Header_Signer_unsigned m2' l2 _ Hl2'). by rewrite Hlen, Hsig.
    + assert (Hnz : slice_len (Signature (content (Header_of_content c))) ≠ 0%nat).
      { rewrite Hlen. by destruct sig. }
      assert (Hcs : signer_cached m2' (Header_of_content c) sig)
        by (intros q Hq; discriminate Hq).
      pose proof (Header_Signer_signed m2' l2 _ sig Hl2' Hs2' Hcs Hnz) as Hspec.
      rewrite Hsign in Hspec.
      destruct (dsa_Signer (signing_hash (content h)) sig) as [ad|msg].
      * destruct Hspec as (p & m3 & _ & _ & Hsigner & _ & Hp & _).
        by exists p, m3.
      * by destruct Hspec.
Qed.

Lemma roundtrip_keeps_identity_witness :
  let bs := Fixture.encoded (content Fixture.signed_genesis) (replicate 65 x07) in
  ∃ m2' sum,
    Header_DecodeRLP (H := RLP.codec) 1%positive bs Fixture.with_buffer
    = (Ok [], m2') ∧
    (Header_Hash (H := RLP.codec) (H0 := Fixture.checksum) 1%positive
       Fixture.signed_store).1 = Ok sum ∧
    (Header_Hash (H := RLP.codec) (H0 := Fixture.checksum) 1%positive m2').1
    = Ok sum ∧
    ∃ p m3,
      Header_Signer (H := RLP.codec) (H0 := Fixture.checksum)
        (H1 := Fixture.recover) 1%positive m2' = (Ok p, m3) ∧
      cells m3 !! p
      = Some (take 20 (Fixture.checksum
                (replicate 65 x07 ++
                 signing_hash (H := RLP.codec) (H0 := Fixture.checksum)
                   (content Fixture.signed_genesis)))).
Proof.
  intros bs.
  destruct (roundtrip_keeps_identity (H := RLP.codec) (H1 := Fixture.checksum)
              (H2 := Fixture.recover)
              Fixture.signed_store Fixture.with_buffer 1%positive 1%positive
              Fixture.signed_genesis (set_hash Fixture.block0 1%positive)
              (replicate 65 x07) bs
              ltac:(vm_compute; reflexivity) ltac:(vm_compute; reflexivity)
              ltac:(intros p Hp; discriminate Hp)
              ltac:(vm_compute; reflexivity) ltac:(vm_compute; reflexivity))
    as (m2' & sum & Hrun & Hh1 & Hh2 & _ & Hsigner).
  exists m2', sum. split_and!; [exact Hrun|exact Hh1|exact Hh2|].
  rewrite decide_False in Hsigner by discriminate.
  assert (Hrec : dsa_Signer (Recover := Fixture.recover)
                   (signing_hash (H := RLP.codec) (H0 := Fixture.checksum)
                      (content Fixture.signed_genesis)) (replicate 65 x07)
                 = Success (take 20 (Fixture.checksum
                     (replicate 65 x07 ++
                      signing_hash (H := RLP.codec) (H0 := Fixture.checksum)
                        (content Fixture.signed_genesis)))))
    by (vm_compute; reflexivity).
  rewrite Hrec in Hsigner. exact Hsigner.
Defined.

(** X12.  Signatures do not pile up: [h.WithSignature(s1).WithSignature(s2)]
    has the content of [h] with the bytes of [s2] as its signature, as
    [h.WithSignature(s2)] has, and [h] and the intermediate header are as
    they were. *)
Theorem WithSignature_twice (m : mem) (l : loc) (h : Header) (s1 s2 : slice)
    (bs1 bs2 : list byte) :
  headers m !! l = Some h →
  slice_view (cells m) s1 = Some bs1 → slice_view (cells m) s2 = Some bs2 →
  ∃ l1 m1 h1 l2 m2 h2,
    Header_WithSignature l s1 m = (Ok l1, m1) ∧
    Header_WithSignature l1 s2 m1 = (Ok l2, m2) ∧
    headers m2 !! l2 = Some h2 ∧
    content_value m2 h2 = Some (content_fields (content h) bs2) ∧
    cache h2 = {| hash := None; signer := None |} ∧
    headers m2 !! l = Some h ∧
    headers m2 !! l1 = Some h1 ∧
    content_value m2 h1 = Some (content_fields (content h) bs1).
Proof.
  intros Hl Hs1 Hs2.
  destruct (Header_WithSignature_then m l h s1 bs1 Hl Hs1)
    as (l1 & m1 & t1 & Hrun1 & Hl1 & Ht1 & _ & Hkeep1 & Hsub1).
  pose proof (slice_view_mono _ _ _ _ Hsub1 Hs2) as Hs2'.
  destruct (Header_WithSignature_then m1 l1 _ s2 bs2 Hl1 Hs2')
    as (l2 & m2 & t2 & Hrun2 & Hl2 & Ht2 & _ & Hkeep2 & Hsub2).
  eexists l1, m1, _, l2, m2, _. split_and!.
  - exact Hrun1.
  - exact Hrun2.
  - exact Hl2.
  - unfold content_value. cbn [content Header_of_content Signature set_Signature].
    by rewrite Ht2.
  - reflexivity.
  - destruct (Header_WithSignature_then m1 l1 _ s2 bs2 Hl1 Hs2')
      as (l2' & m2' & t2' & Hrun2' & _ & _ & _ & Hkeep2' & _).
    rewrite Hrun2' in Hrun2. injection Hrun2 as <- <-.
    destruct (decide (l = l1)) as [->|Hne]; [|].
    + rewrite Hkeep1 in Hl1. rewrite Hkeep2'. congruence.
    + pose proof (Header_WithSignature_run m1 l1 _ s2 bs2 Hl1 Hs2')
        as (t & cs & Hrun & _).
      rewrite Hrun in Hrun2'. injection Hrun2' as _ <-. cbn [headers].
      rewrite lookup_insert_ne; [exact Hkeep1|].
      intros E. pose proof (fresh_header_None m1) as Hf. rewrite E in Hf.
      congruence.
  - exact Hkeep2.
  - unfold content_value. cbn [content Header_of_content Signature set_Signature].
    by rewrite (slice_view_mono _ _ _ _ Hsub2 Ht1).
Qed.

Lemma WithSignature_twice_witness :
  ∃ l1 m1 h1 l2 m2 h2,
    Header_WithSignature 1%positive (Slice 5%positive 0 2) Fixture.with_buffer
    = (Ok l1, m1) ∧
    Header_WithSignature l1 (Slice 5%positive 2 3) m1 = (Ok l2, m2) ∧
    headers m2 !! l2 = Some h2 ∧
    content_value m2 h2
    = Some (content_fields (content Fixture.block0) [x0c; x0d; x0e]) ∧
    cache h2 = {| hash := None; signer := None |} ∧
    headers m2 !! 1%positive = Some (set_hash Fixture.block0 1%positive) ∧
    headers m2 !! l1 = Some h1 ∧
    content_value m2 h1 = Some (content_fields (content Fixture.block0) [x0a; x0b]).
Proof.
  apply (WithSignature_twice Fixture.with_buffer 1%positive
           (set_hash Fixture.block0 1%positive)
           (Slice 5%positive 0 2) (Slice 5%positive 2 3)
           [x0a; x0b] [x0c; x0d; x0e]).
  - vm_compute. reflexivity.
  - vm_compute. reflexivity.
  - vm_compute. reflexivity.
Defined.

(** ** No stale cache *)

(** X13.  Coherence of the caches is an invariant of the package: from a
    memory in which every header is coherent (its signature readable, a set
    hash cache holding its block hash, a set signer cache holding the
    address [dsa.Signer] recovers), every call of [Hash], [Signer],
    [WithSignature] and [DecodeRLP], whatever it returns, leads to such a
    memory. *)
Theorem caches_stay_coherent `{Codec, Hasher, Recover} (m : mem) :
  mem_coherent m →
  (∀ l, mem_coherent (Header_Hash l m).2) ∧
  (∀ l, mem_coherent (Header_Signer l m).2) ∧
  (∀ l sig, mem_coherent (Header_WithSignature l sig m).2) ∧
  (∀ l s, mem_coherent (Header_DecodeRLP l s m).2).
Proof.
  intros Hinv. split_and!.
  - intros l. destruct (Header_Hash l m) as [r m'] eqn:Hrun.
    exact (Header_Hash_keeps m m' l r Hinv Hrun).
  - intros l. destruct (Header_Signer l m) as [r m'] eqn:Hrun.
    exact (Header_Signer_keeps m m' l r Hinv Hrun).
  - intros l sig. destruct (Header_WithSignature l sig m) as [r m'] eqn:Hrun.
    exact (Header_WithSignature_keeps m m' l sig r Hinv Hrun).
  - intros l s. destruct (Header_DecodeRLP l s m) as [r m'] eqn:Hrun.
    exact (Header_DecodeRLP_keeps m m' l s r Hinv Hrun).
Qed.

Lemma signed_store_coherent :
  mem_coherent (H := RLP.codec) (H0 := Fixture.checksum) (H1 := Fixture.recover)
    Fixture.signed_store.
Proof.
  intros l h Hl. cbn [Fixture.signed_store headers] in Hl.
  apply lookup_singleton_Some in Hl as [_ <-].
  apply (Header_of_content_coherent _ _ (replicate 65 x07)).
  vm_compute. reflexivity.
Qed.

Lemma caches_stay_coherent_witness :
  mem_coherent (H := RLP.codec) (H0 := Fixture.checksum) (H1 := Fixture.recover)
    (Header_Hash (H := RLP.codec) (H0 := Fixture.checksum) 1%positive
       Fixture.signed_store).2 ∧
  mem_coherent (H := RLP.codec) (H0 := Fixture.checksum) (H1 := Fixture.recover)
    (Header_Signer (H := RLP.codec) (H0 := Fixture.checksum)
       (H1 := Fixture.recover) 1%positive Fixture.signed_store).2.
Proof.
  pose proof (caches_stay_coherent Fixture.signed_store signed_store_coherent)
    as (Hh & Hs & _ & _).
  split; [apply Hh|apply Hs].
Defined.

(** ** The signer and the total score *)


